(** * scrapy_selenium.middlewares: the driver pool of [SeleniumMiddleware]

    A shallow embedding of [src/scrapy_selenium/middlewares.py].

    The middleware keeps a [queue.Queue] of Selenium drivers.  The browser
    processes, the Selenium constructors and Python's import machinery are
    outside the file: they are an environment that answers every call, given
    the history of calls so far.  The middleware's own objects (the queue,
    the request's [meta] dict) are explicit state. *)

From Stdlib Require Import ZArith.
From stdpp Require Import base strings list gmap.

(** ** Python exceptions that occur in the file or reach it *)

Inductive exn :=
| Empty                                   (* queue.Empty *)
| ValueError (msg : string)
| NameError (name : string)
| UnboundLocalError (name : string)
| ModuleNotFoundError (name : string)
| WebDriverException (msg : string)
| TimeoutException (msg : string).

(** All of them derive from [Exception], which is what [except Exception]
    in [process_request] catches. *)

#[global] Instance exn_eq_dec : EqDecision exn.
Proof. solve_decision. Defined.

Inductive res (A : Type) :=
| Ret (a : A)
| Raise (e : exn).
Arguments Ret {A} a.
Arguments Raise {A} e.

(** ** Names visible in the module

    The [import] lines at the top of the file and the two classes it
    defines; [builtins_used] are the builtins the file refers to. *)

Definition module_globals : list string :=
  ["import_module"; "WebDriverWait"; "webdriver"; "HtmlResponse";
   "NotConfigured"; "signals"; "UserAgentMiddleware"; "random"; "Queue";
   "SeleniumRequest"; "SeleniumMiddleware"; "MyUserAgentMiddleware"].

Definition builtins_used : list string :=
  ["isinstance"; "getattr"; "str"; "range"; "Exception"].

Definition name_bound (name : string) : bool :=
  bool_decide (name ∈ module_globals ++ builtins_used).

(** Evaluating a global name: [NameError] when it is bound nowhere. *)
Definition load_name (name : string) : res unit :=
  if name_bound name then Ret () else Raise (NameError name).

(** ** Python values *)

(** Truthiness of an optional string ([None] and [''] are false). *)
Definition truthy (s : option string) : bool :=
  match s with
  | Some s => negb (String.eqb s EmptyString)
  | None => false
  end.

Definition lower_ascii (c : Ascii.ascii) : Ascii.ascii :=
  let n := Ascii.nat_of_ascii c in
  if (65 <=? n)%nat && (n <=? 90)%nat then Ascii.ascii_of_nat (n + 32) else c.

(** [str.lower] on the ASCII range (the result is only compared with
    ['chrome']). *)
Fixpoint lower (s : string) : string :=
  match s with
  | EmptyString => EmptyString
  | String c s' => String (lower_ascii c) (lower s')
  end.

(** [str.encode]: a [string] here is the sequence of its UTF-8 bytes. *)
Definition str_encode (s : string) : list Byte.byte := String.list_byte_of_string s.

(** ** Drivers and what is asked of them *)

Definition driver_id := nat.

(** The [Options] object of the driver's module. *)
Record Options := mkOptions {
  binary_location : option string;
  arguments : list string
}.

Inductive kwarg :=
| KwStr (s : string)
| KwOptions (o : Options).

(** The three constructor calls of [create_driver]. *)
Inductive launch :=
| DriverKlass (driver_name : string) (driver_kwargs : list (string * kwarg))
| WebdriverRemote (command_executor : string) (desired_capabilities : Options)
| WebdriverChrome (options : Options).

(** The calls [process_request] makes on a driver. *)
Inductive command :=
| Get (url : string)
| AddCookie (name value : string)
| WaitUntil (wait_until : string) (wait_time : Z)
| GetScreenshotAsPng
| ExecuteScript (script : string)
| PageSource
| CurrentUrl.

Inductive event :=
| EvLaunch (d : driver_id) (l : launch)
| EvCommand (d : driver_id) (c : command)
| EvQuit (d : driver_id).

Inductive reply :=
| Ok (payload : string)
| Fail (e : exn).

#[global] Instance reply_eq_dec : EqDecision reply.
Proof. solve_decision. Defined.

Definition history := list (event * reply).

(** ** [queue.Queue] *)

Record Queue := mkQueue {
  maxsize : Z;
  items : list driver_id
}.

Definition Queue_new (maxsize : Z) : Queue := mkQueue maxsize [].

(** [Queue.full]: [0 < maxsize <= qsize]; a [maxsize <= 0] is unbounded. *)
Definition Queue_full (q : Queue) : bool :=
  (0 <? maxsize q)%Z && (maxsize q <=? Z.of_nat (length (items q)))%Z.

Definition Queue_empty (q : Queue) : bool :=
  match items q with
  | [] => true
  | _ :: _ => false
  end.

(** [Queue.put(x)] with no timeout: [None] when the queue is full and the
    caller has to wait. *)
Definition Queue_put (q : Queue) (x : driver_id) : option Queue :=
  if Queue_full q then None else Some (mkQueue (maxsize q) (items q ++ [x])).

Inductive got :=
| Got (d : driver_id) (q : Queue)
| GetRaises (e : exn)
| GetWaits.

(** [Queue.get(timeout=t)].  With a timeout: a negative one is a
    [ValueError]; on an empty queue the wait ends in [Empty].  Without a
    timeout the caller waits on an empty queue. *)
Definition Queue_get (q : Queue) (timeout : option Z) : got :=
  match timeout with
  | Some t =>
      if (t <? 0)%Z then GetRaises (ValueError "'timeout' must be a non-negative number")
      else match items q with
           | [] => GetRaises Empty
           | d :: rest => Got d (mkQueue (maxsize q) rest)
           end
  | None =>
      match items q with
      | [] => GetWaits
      | d :: rest => Got d (mkQueue (maxsize q) rest)
      end
  end.

(** ** The world: the pool, the calls made so far, the next driver identity *)

Record world := mkWorld {
  driver_pool : Queue;
  trace : history;
  next_id : nat
}.

Definition set_pool (q : Queue) (w : world) : world :=
  mkWorld q (trace w) (next_id w).

Definition log (ev : event) (rp : reply) (w : world) : world :=
  mkWorld (driver_pool w) (trace w ++ [(ev, rp)]) (next_id w).

(** ** Requests and responses *)

Inductive meta_value :=
| MetaScreenshot (png : string)
| MetaDriver (d : driver_id)
| MetaOther (v : string).

#[global] Instance meta_value_eq_dec : EqDecision meta_value.
Proof. solve_decision. Defined.

(** A [scrapy.Request]; [is_SeleniumRequest] is
    [isinstance(request, SeleniumRequest)], and the last four fields are
    those [SeleniumRequest] adds. *)
Record Request := mkRequest {
  is_SeleniumRequest : bool;
  url : string;
  cookies : list (string * string);      (* dict, in insertion order *)
  meta : gmap string meta_value;
  wait_time : Z;
  wait_until : option string;            (* a callable, or None *)
  screenshot : bool;
  script : option string
}.

Definition set_meta (m : gmap string meta_value) (r : Request) : Request :=
  mkRequest (is_SeleniumRequest r) (url r) (cookies r) m
            (wait_time r) (wait_until r) (screenshot r) (script r).

(** [HtmlResponse(url, body=, encoding=, request=request)]; the request is
    the object that was passed in, returned next to the response. *)
Record HtmlResponse := mkHtmlResponse {
  resp_url : string;
  resp_body : list Byte.byte;
  resp_encoding : string
}.

(** ** The middleware object *)

Record SeleniumMiddleware := mkSeleniumMiddleware {
  driver_name : string;
  driver_executable_path : option string;
  browser_executable_path : option string;
  command_executor : option string;
  driver_arguments : list string;
  pool_size : Z;
  queue_timeout : Z
}.

(** What a call of [process_request] comes to: a returned value, a raised
    exception, or a wait that nothing in the same task can end. *)
Inductive outcome :=
| Returned (r : option HtmlResponse)
| Raised (e : exn)
| Blocked.

(** ** A state-and-exception monad for straight-line Python *)

Definition M (S A : Type) : Type := S → res A * S.

Definition ret {S A} (a : A) : M S A := fun s => (Ret a, s).
Definition raise {S A} (e : exn) : M S A := fun s => (Raise e, s).
Definition bind {S A B} (m : M S A) (k : A → M S B) : M S B :=
  fun s => match m s with
           | (Ret a, s') => k a s'
           | (Raise e, s') => (Raise e, s')
           end.

Notation "'let*' x ':=' m 'in' k" := (bind m (fun x => k))
  (at level 10, x name, m at level 100, k at level 200, only parsing).

(** [if c: body] *)
Definition when {S} (c : bool) (body : M S unit) : M S unit :=
  if c then body else ret ().

(** [for x in xs: body(x)] *)
Fixpoint for_each {S A} (xs : list A) (body : A → M S unit) : M S unit :=
  match xs with
  | [] => ret ()
  | x :: rest => let* _ := body x in for_each rest body
  end.

(** ** Settings, the crawler, and [MyUserAgentMiddleware] *)

(** The settings the file reads.  [None] is a name that is missing or set
    to [None]: [settings.get(name, default)] answers the default in both
    cases. *)
Record Settings := mkSettings {
  SELENIUM_DRIVER_NAME : option string;
  SELENIUM_DRIVER_EXECUTABLE_PATH : option string;
  SELENIUM_BROWSER_EXECUTABLE_PATH : option string;
  SELENIUM_COMMAND_EXECUTOR : option string;
  SELENIUM_DRIVER_ARGUMENTS : option (list string);
  SELENIUM_DRIVER_POOL_SIZE : option Z;
  SELENIUM_QUEUE_TIMEOUT : option Z;
  MY_USER_AGENT : option (list string)
}.

(** The crawler: its settings, and whether a receiver is connected to the
    [spider_closed] signal. *)
Record Crawler := mkCrawler {
  settings : Settings;
  spider_closed_connected : bool
}.

(** What [SeleniumMiddleware.from_crawler] can raise besides what comes out
    of [__init__]. *)
Inductive startup_error :=
| NotConfigured (msg : string)
| ArgumentsTypeError (msg : string)     (* TypeError *)
| InitRaised (e : exn).

(** What [from_crawler] comes to.  [StartedWithoutArguments]: the object
    exists with [driver_arguments] being [None]; the list of the record is
    then not an attribute of the object. *)
Inductive startup :=
| Started (self : SeleniumMiddleware)
| StartedWithoutArguments (self : SeleniumMiddleware)
| StartupRaised (err : startup_error)
| StartupBlocked.

Module MyUserAgentMiddleware.

Record t := mk { user_agent : option (list string) }.

Inductive error :=
| TypeError (msg : string)
| IndexError (msg : string).

Definition __init__ (user_agent : option (list string)) : t := mk user_agent.

Definition from_crawler (crawler : Crawler) : t :=
  __init__ (MY_USER_AGENT (settings crawler)).

(** [random.choice(seq)]: [seq[randbelow(len(seq))]], where [draw] is what
    the generator gives; an empty sequence is an [IndexError], and [None]
    has no [len]. *)
Definition choice (draw : nat) (seq : option (list string))
  : error + string :=
  match seq with
  | None => inl (TypeError "object of type 'NoneType' has no len()")
  | Some l =>
      match l !! (draw mod length l) with
      | Some agent => inr agent
      | None => inl (IndexError "Cannot choose from an empty sequence")
      end
  end.

(** [process_request] works on the request's headers, keyed by header
    name; on a normal return (of [None]) the result is the headers
    afterwards. *)
Definition process_request (self : t) (draw : nat)
  (headers : gmap string string) : error + gmap string string :=
  match choice draw (user_agent self) with
  | inl e => inl e
  | inr agent => inr (<["User-Agent" := agent]> headers)
  end.

End MyUserAgentMiddleware.

(** ** Concrete environments and objects, used to run the definitions *)

(** Every call returns; pages read as a fixed document at a redirected
    address. *)
Definition env_ok : history → event → reply := fun _ ev =>
  match ev with
  | EvCommand _ PageSource => Ok "<html></html>"
  | EvCommand _ CurrentUrl => Ok "http://example.com/landing"
  | EvCommand _ GetScreenshotAsPng => Ok "PNG"
  | _ => Ok EmptyString
  end.

(** Navigation raises; everything else returns. *)
Definition env_get_fails : history → event → reply := fun h ev =>
  match ev with
  | EvCommand _ (Get _) => Fail (WebDriverException "net::ERR_NAME_NOT_RESOLVED")
  | _ => env_ok h ev
  end.

(** The wait on driver 0 times out; everything else returns. *)
Definition env_wait_times_out : history → event → reply := fun h ev =>
  match ev with
  | EvCommand 0 (WaitUntil _ _) => Fail (TimeoutException EmptyString)
  | _ => env_ok h ev
  end.

(** The second driver cannot be started; everything else returns. *)
Definition env_second_launch_fails : history → event → reply := fun h ev =>
  match ev with
  | EvLaunch 1 _ => Fail (WebDriverException "cannot start")
  | _ => env_ok h ev
  end.

(** Navigation raises and no driver beyond the first can be started. *)
Definition env_get_and_relaunch_fail : history → event → reply := fun h ev =>
  match ev with
  | EvLaunch (S _) _ => Fail (WebDriverException "cannot start")
  | _ => env_get_fails h ev
  end.

(** The session of driver 0 is gone: its [quit] raises; everything else
    returns. *)
Definition env_quit_fails : history → event → reply := fun h ev =>
  match ev with
  | EvQuit 0 => Fail (WebDriverException "invalid session id")
  | _ => env_ok h ev
  end.

Definition all_importable : string → bool := fun _ => true.

Definition chrome_auto (n : Z) : SeleniumMiddleware :=
  mkSeleniumMiddleware "chrome" None None None ["--headless"] n 300.

Definition firefox_auto (n : Z) : SeleniumMiddleware :=
  mkSeleniumMiddleware "firefox" None None None [] n 300.

Definition chrome_local (n : Z) : SeleniumMiddleware :=
  mkSeleniumMiddleware "chrome" (Some "/usr/bin/chromedriver")
    (Some "/usr/bin/chromium") (Some "http://hub:4444")
    ["--headless"; "--no-sandbox"] n 300.

Definition chrome_remote (n : Z) : SeleniumMiddleware :=
  mkSeleniumMiddleware "chrome" None None (Some "http://hub:4444")
    ["--headless"] n 300.

Definition plain_request : Request :=
  mkRequest false "http://example.com/" [] ∅ 0 None false None.

Definition selenium_request : Request :=
  mkRequest true "http://example.com/" [("session", "abc"); ("lang", "en")]
    {[ "depth" := MetaOther "0" ]} 10 (Some "title_is") true
    (Some "window.scrollTo(0, 1)").

(** The world before the middleware exists. *)
Definition blank : world := mkWorld (Queue_new 0) [] 0.

Definition headless_chrome : launch :=
  WebdriverChrome (mkOptions None ["--headless"]).

(** The world after [__init__] of [chrome_auto 1] and of [chrome_auto 2]
    when every call returns. *)
Definition started_1 : world :=
  mkWorld (mkQueue 1 [0]) [(EvLaunch 0 headless_chrome, Ok EmptyString)] 1.

Definition started_2 : world :=
  mkWorld (mkQueue 2 [0; 1])
          [(EvLaunch 0 headless_chrome, Ok EmptyString);
           (EvLaunch 1 headless_chrome, Ok EmptyString)] 2.

Definition chrome_settings : Settings :=
  mkSettings (Some "chrome") None None None (Some ["--headless"]) None None
             (Some ["Mozilla/5.0 (X11)"; "Mozilla/5.0 (Windows)"]).

Definition no_name_settings : Settings :=
  mkSettings None None None None (Some []) (Some 2%Z) None None.

Definition no_arguments_settings : Settings :=
  mkSettings (Some "chrome") None None None None None None None.

Definition chrome_headers : gmap string string :=
  {[ "Accept" := "text/html"; "User-Agent" := "Scrapy/2.11" ]}.

(** A queue timeout below zero. *)
Definition impatient_chrome : SeleniumMiddleware :=
  mkSeleniumMiddleware "chrome" None None None ["--headless"] 2 (-1).

(** Settings that name a driver Selenium does not have, and the imports
    that then succeed. *)
Definition netscape_settings : Settings :=
  mkSettings (Some "netscape") None None None (Some []) None None None.

Definition no_netscape : string → bool := fun name =>
  negb (String.eqb name "selenium.webdriver.netscape.webdriver").

(** The world after [__init__] of [chrome_auto 5] when every call
    returns. *)
Definition started_5 : world :=
  mkWorld (mkQueue 5 [0; 1; 2; 3; 4])
          (map (fun d => (EvLaunch d headless_chrome, Ok EmptyString))
               [0; 1; 2; 3; 4]) 5.

(** ** The environment

    [env h ev] is the answer of the outside world to the call [ev] after the
    calls in [h]: the payload of a call that returns, or the exception of one
    that raises.  [importable name] says whether [import name] succeeds. *)

Section Middleware.

Variable env : history → event → reply.
Variable importable : string → bool.

(** A call to the outside, logged with its answer. *)
Definition ask (ev : event) : M world string := fun w =>
  match env (trace w) ev with
  | Ok v => (Ret v, log ev (Ok v) w)
  | Fail e => (Raise e, log ev (Fail e) w)
  end.

Definition import_module (name : string) : M world unit :=
  if importable name then ret () else raise (ModuleNotFoundError name).

(** A driver constructor is called: the new object gets the next identity. *)
Definition construct (l : launch) : M world driver_id := fun w =>
  let d := next_id w in
  match ask (EvLaunch d l) (mkWorld (driver_pool w) (trace w) (S d)) with
  | (Ret _, w') => (Ret d, w')
  | (Raise e, w') => (Raise e, w')
  end.

(** [driver.quit()] *)
Definition quit (d : driver_id) : M world unit :=
  let* _ := ask (EvQuit d) in ret ().

(** *** [create_driver] *)

Definition add_argument (o : Options) (argument : string) : Options :=
  mkOptions (binary_location o) (arguments o ++ [argument]).

Definition build_options (self : SeleniumMiddleware) : Options :=
  let driver_options := mkOptions None [] in
  let driver_options :=
    if truthy (browser_executable_path self)
    then mkOptions (browser_executable_path self) (arguments driver_options)
    else driver_options in
  fold_left add_argument (driver_arguments self) driver_options.

Definition create_driver (self : SeleniumMiddleware) : M world driver_id :=
  let webdriver_base_path := "selenium.webdriver." +:+ driver_name self in
  let* _ := import_module (webdriver_base_path +:+ ".webdriver") in
  let* _ := import_module (webdriver_base_path +:+ ".options") in
  let driver_options := build_options self in
  match driver_executable_path self with
  | Some path =>
      (* locally installed driver *)
      let driver_kwargs :=
        [("executable_path", KwStr path);
         (driver_name self +:+ "_options", KwOptions driver_options)] in
      construct (DriverKlass (driver_name self) driver_kwargs)
  | None =>
      match command_executor self with
      | Some executor =>
          (* remote driver *)
          construct (WebdriverRemote executor driver_options)
      | None =>
          (* webdriver-manager *)
          let* _ := import_module "webdriver_manager.chrome" in
          let* _ := import_module "selenium.webdriver.chrome.service" in
          if negb (String.eqb (driver_name self) EmptyString)
             && String.eqb (lower (driver_name self)) "chrome"
          then construct (WebdriverChrome driver_options)
          else (* [return driver] with [driver] never assigned *)
            raise (UnboundLocalError "driver")
      end
  end.

(** *** [__init__] *)

(** [for _ in range(n): self.driver_pool.put(self.create_driver())] *)
Fixpoint fill_pool (self : SeleniumMiddleware) (n : nat) (w : world)
  : outcome * world :=
  match n with
  | O => (Returned None, w)
  | S n' =>
      match create_driver self w with
      | (Raise e, w') => (Raised e, w')
      | (Ret d, w') =>
          match Queue_put (driver_pool w') d with
          | None => (Blocked, w')
          | Some q => fill_pool self n' (set_pool q w')
          end
      end
  end.

Definition __init__ (self : SeleniumMiddleware) (w : world) : outcome * world :=
  fill_pool self (Z.to_nat (pool_size self))
            (set_pool (Queue_new (pool_size self)) w).

(** *** [process_request] *)

(** The first [try]: [driver_pool.get(timeout=queue_timeout)] under
    [except Empty].  When an exception reaches the clause, the name [Empty]
    is evaluated to match it; the handler body then evaluates [logging]. *)
Definition acquire (self : SeleniumMiddleware) (w : world)
  : (outcome + driver_id) * world :=
  match Queue_get (driver_pool w) (Some (queue_timeout self)) with
  | Got driver q => (inr driver, set_pool q w)
  | GetWaits => (inl Blocked, w)
  | GetRaises e =>
      match load_name "Empty" with
      | Raise ne => (inl (Raised ne), w)
      | Ret _ =>
          if bool_decide (e = Empty) then
            match load_name "logging" with
            | Raise ne => (inl (Raised ne), w)
            | Ret _ => (inl (Returned None), w)
            end
          else (inl (Raised e), w)
      end
  end.

(** The body of the second [try] runs on the world and on the request's
    [meta] dict. *)
Definition frame : Type := world * gmap string meta_value.

Definition call (driver : driver_id) (c : command) : M frame string :=
  fun '(w, m) =>
    match ask (EvCommand driver c) w with
    | (r, w') => (r, (w', m))
    end.

Definition meta_setitem (k : string) (v : meta_value) : M frame unit :=
  fun '(w, m) => (Ret (), (w, <[k := v]> m)).

Definition try_body (driver : driver_id) (request : Request)
  : M frame HtmlResponse :=
  let* _ := call driver (Get (url request)) in
  let* _ := for_each (cookies request) (fun '(cookie_name, cookie_value) =>
              let* _ := call driver (AddCookie cookie_name cookie_value) in
              ret ()) in
  let* _ := match wait_until request with
            | Some condition =>
                let* _ := call driver
                            (WaitUntil condition (wait_time request)) in
                ret ()
            | None => ret ()
            end in
  let* _ := when (screenshot request)
              (let* png := call driver GetScreenshotAsPng in
               meta_setitem "screenshot" (MetaScreenshot png)) in
  let* _ := when (truthy (script request))
              (let* _ := call driver
                           (ExecuteScript
                              (default EmptyString (script request))) in
               ret ()) in
  let* page_source := call driver PageSource in
  let body := str_encode page_source in
  (* Expose the driver via the "meta" attribute *)
  let* _ := meta_setitem "driver" (MetaDriver driver) in
  let* current_url := call driver CurrentUrl in
  ret (mkHtmlResponse current_url body "utf-8").

(** [finally: self.driver_pool.put(driver)], then what the [try] statement
    was about to do. *)
Definition finally_put (driver : driver_id) (out : outcome) (w : world)
  : outcome * world :=
  match Queue_put (driver_pool w) driver with
  | Some q => (out, set_pool q w)
  | None => (Blocked, w)
  end.

(** One call, run to its end by a task that is alone.  The second
    component is the request object after the call. *)
Definition process_request (self : SeleniumMiddleware) (request : Request)
  (w : world) : outcome * Request * world :=
  if negb (is_SeleniumRequest request) then (Returned None, request, w)
  else
    match acquire self w with
    | (inl out, w1) => (out, request, w1)
    | (inr driver, w1) =>
        match try_body driver request (w1, meta request) with
        | (Ret response, (w2, m)) =>
            let '(out, w3) :=
              finally_put driver (Returned (Some response)) w2 in
            (out, set_meta m request, w3)
        | (Raise e, (w2, m)) =>
            (* except Exception: quit, create_driver, put, raise *)
            match (let* _ := quit driver in create_driver self) w2 with
            | (Raise e', w3) =>
                let '(out, w4) := finally_put driver (Raised e') w3 in
                (out, set_meta m request, w4)
            | (Ret new, w3) =>
                match Queue_put (driver_pool w3) new with
                | None => (Blocked, set_meta m request, w3)
                | Some q =>
                    let '(out, w4) :=
                      finally_put driver (Raised e) (set_pool q w3) in
                    (out, set_meta m request, w4)
                end
            end
        end
    end.

(** *** [spider_closed] *)

(** [while not self.driver_pool.empty(): driver = get(); driver.quit()].
    The queue only ever holds drivers, so [driver is not None] holds; with
    no other task around, the [get] after a failed [empty()] test finds an
    entry.  An exception from [quit] leaves the loop and the function.  One
    round per queue entry is all the loop can make. *)
Fixpoint spider_closed_loop (fuel : nat) (w : world) : outcome * world :=
  match fuel with
  | O => (Returned None, w)
  | S fuel' =>
      if Queue_empty (driver_pool w) then (Returned None, w)
      else match Queue_get (driver_pool w) None with
           | Got driver q =>
               match quit driver (set_pool q w) with
               | (Ret _, w') => spider_closed_loop fuel' w'
               | (Raise e, w') => (Raised e, w')
               end
           | GetRaises e => (Raised e, w)
           | GetWaits => (Blocked, w)
           end
  end.

Definition spider_closed (w : world) : outcome * world :=
  spider_closed_loop (length (items (driver_pool w))) w.

(** ** Several tasks on one pool

    The queue operations are atomic; between them the tasks interleave.  A
    task is at one of the points of [process_request] where the next thing
    it does is a queue operation or a piece of work on drivers it alone
    holds. *)

Inductive pc :=
| AtGet (request : Request)
| InTry (driver : driver_id) (request : Request)
| InExcept (driver : driver_id) (request : Request) (e : exn)
| AtPutNew (driver : driver_id) (request : Request) (e : exn) (new : driver_id)
| AtFinally (driver : driver_id) (request : Request) (out : outcome)
| Finished (request : Request) (out : outcome).

(** [None]: the task waits. *)
Definition task_step (self : SeleniumMiddleware) (p : pc) (w : world)
  : option (pc * world) :=
  match p with
  | AtGet request =>
      if negb (is_SeleniumRequest request)
      then Some (Finished request (Returned None), w)
      else match acquire self w with
           | (inl Blocked, _) => None
           | (inl out, w1) => Some (Finished request out, w1)
           | (inr driver, w1) => Some (InTry driver request, w1)
           end
  | InTry driver request =>
      match try_body driver request (w, meta request) with
      | (Ret response, (w2, m)) =>
          Some (AtFinally driver (set_meta m request)
                          (Returned (Some response)), w2)
      | (Raise e, (w2, m)) => Some (InExcept driver (set_meta m request) e, w2)
      end
  | InExcept driver request e =>
      match (let* _ := quit driver in create_driver self) w with
      | (Raise e', w3) => Some (AtFinally driver request (Raised e'), w3)
      | (Ret new, w3) => Some (AtPutNew driver request e new, w3)
      end
  | AtPutNew driver request e new =>
      match Queue_put (driver_pool w) new with
      | None => None
      | Some q => Some (AtFinally driver request (Raised e), set_pool q w)
      end
  | AtFinally driver request out =>
      match Queue_put (driver_pool w) driver with
      | None => None
      | Some q => Some (Finished request out, set_pool q w)
      end
  | Finished _ _ => None
  end.

(** The task that runs [spider_closed]. *)
Inductive closer_pc :=
| Off
| AtEmptyTest
| AtCloserGet
| AtQuit (driver : driver_id).

(** The last component lists the drivers [spider_closed] has taken out of
    the queue and called [quit] on; a [quit] that raises ends
    [spider_closed]. *)
Definition closer_step (c : closer_pc) (w : world) (drained : list driver_id)
  : option (closer_pc * world * list driver_id) :=
  match c with
  | Off => Some (AtEmptyTest, w, drained)
  | AtEmptyTest =>
      if Queue_empty (driver_pool w) then Some (Off, w, drained)
      else Some (AtCloserGet, w, drained)
  | AtCloserGet =>
      match Queue_get (driver_pool w) None with
      | Got driver q => Some (AtQuit driver, set_pool q w, drained)
      | _ => None
      end
  | AtQuit driver =>
      match quit driver w with
      | (Ret _, w') => Some (AtEmptyTest, w', drained ++ [driver])
      | (Raise _, w') => Some (Off, w', drained ++ [driver])
      end
  end.

Record system := mkSystem {
  sys_world : world;
  tasks : list pc;
  closing : closer_pc;
  drained : list driver_id
}.

Inductive label :=
| Arrive (request : Request)     (* a new call of process_request *)
| Task (i : nat)                 (* task i takes its next step *)
| Closer.                        (* spider_closed takes its next step *)

Definition sys_step (self : SeleniumMiddleware) (l : label) (s : system)
  : option system :=
  match l with
  | Arrive request =>
      Some (mkSystem (sys_world s) (tasks s ++ [AtGet request])
                     (closing s) (drained s))
  | Task i =>
      p ← tasks s !! i;
      '(p', w') ← task_step self p (sys_world s);
      Some (mkSystem w' (<[i := p']> (tasks s)) (closing s) (drained s))
  | Closer =>
      '(c', w', dr') ← closer_step (closing s) (sys_world s) (drained s);
      Some (mkSystem w' (tasks s) c' dr')
  end.

Fixpoint run (self : SeleniumMiddleware) (ls : list label) (s : system)
  : option system :=
  match ls with
  | [] => Some s
  | l :: ls' => s' ← sys_step self l s; run self ls' s'
  end.

(** The states a crawl can be in: the middleware was built, then tasks and
    [spider_closed] took steps in some order. *)
Inductive reachable (self : SeleniumMiddleware) : system → Prop :=
| reach_init w :
    __init__ self blank = (Returned None, w) →
    reachable self (mkSystem w [] Off [])
| reach_step s l s' :
    reachable self s → sys_step self l s = Some s' → reachable self s'.

(** Drivers a task holds. *)
Definition held (p : pc) : list driver_id :=
  match p with
  | AtGet _ => []
  | InTry d _ => [d]
  | InExcept d _ _ => [d]
  | AtPutNew d _ _ new => [d; new]
  | AtFinally d _ _ => [d]
  | Finished _ _ => []
  end.

Definition checked_out (s : system) : list driver_id :=
  concat (map held (tasks s)).

Definition idle (s : system) : list driver_id := items (driver_pool (sys_world s)).

Definition closer_held (c : closer_pc) : list driver_id :=
  match c with
  | AtQuit d => [d]
  | _ => []
  end.

(** A task on its way to raising: nothing it does from here on makes it
    return. *)
Definition failing (p : pc) : Prop :=
  match p with
  | AtGet _ | InTry _ _ => False
  | InExcept _ _ _ | AtPutNew _ _ _ _ => True
  | AtFinally _ _ out | Finished _ out => ∃ e, out = Raised e
  end.

(** Readings of the trace: the drivers [quit] was called on (whether it
    returned or raised), the drivers that were started, and the constructor
    calls. *)
Definition quits (h : history) : list driver_id :=
  omap (fun '(ev, _) => match ev with EvQuit d => Some d | _ => None end) h.

Definition launched (h : history) : list driver_id :=
  omap (fun '(ev, rp) =>
          match ev, rp with
          | EvLaunch d _, Ok _ => Some d
          | _, _ => None
          end) h.

Definition launches (h : history) : list (driver_id * launch) :=
  omap (fun '(ev, _) =>
          match ev with EvLaunch d l => Some (d, l) | _ => None end) h.

(** ** Notions the properties are stated with *)

(** The provisioning modes, as the specification names them, chosen from
    the configuration fields alone. *)
Inductive mode := LocalBinary | Remote | AutoManaged.

Definition spec_mode (self : SeleniumMiddleware) : mode :=
  match driver_executable_path self, command_executor self with
  | Some _, _ => LocalBinary
  | None, Some _ => Remote
  | None, None => AutoManaged
  end.

Definition mode_of_launch (l : launch) : mode :=
  match l with
  | DriverKlass _ _ => LocalBinary
  | WebdriverRemote _ _ => Remote
  | WebdriverChrome _ => AutoManaged
  end.

(** The drive sequence of the specification, as driver commands. *)
Definition spec_steps (request : Request) : list command :=
  [Get (url request)]
  ++ map (fun '(n, v) => AddCookie n v) (cookies request)
  ++ match wait_until request with
     | Some condition => [WaitUntil condition (wait_time request)]
     | None => []
     end
  ++ (if screenshot request then [GetScreenshotAsPng] else [])
  ++ (if truthy (script request)
      then [ExecuteScript (default EmptyString (script request))] else [])
  ++ [PageSource; CurrentUrl].

(** The commands [cs] are put to driver [d] one after the other and each
    returns: the history afterwards and the payloads, in order. *)
Fixpoint answers (d : driver_id) (cs : list command) (h : history)
  : option (history * list string) :=
  match cs with
  | [] => Some (h, [])
  | c :: cs' =>
      match env h (EvCommand d c) with
      | Ok v =>
          '(h', vs) ← answers d cs' (h ++ [(EvCommand d c, Ok v)]);
          Some (h', v :: vs)
      | Fail _ => None
      end
  end.

(** A task running alone: its steps one after the other; a step that has
    to wait never comes. *)
Fixpoint run_task (self : SeleniumMiddleware) (fuel : nat) (p : pc) (w : world)
  : outcome * Request * world :=
  match p, fuel with
  | Finished request out, _ => (out, request, w)
  | AtGet request, O | InTry _ request, O | InExcept _ request _, O
  | AtPutNew _ request _ _, O | AtFinally _ request _, O =>
      (Blocked, request, w)
  | AtGet request, S fuel' | InTry _ request, S fuel'
  | InExcept _ request _, S fuel' | AtPutNew _ request _ _, S fuel'
  | AtFinally _ request _, S fuel' =>
      match task_step self p w with
      | Some (p', w') => run_task self fuel' p' w'
      | None => (Blocked, request, w)
      end
  end.

(** [spider_closed] running alone, from its call to its end. *)
Fixpoint run_closer (fuel : nat) (c : closer_pc) (w : world)
  (drained : list driver_id) : option (world * list driver_id) :=
  match fuel with
  | O => None
  | S fuel' =>
      match closer_step c w drained with
      | Some (Off, w', drained') => Some (w', drained')
      | Some (c', w', drained') => run_closer fuel' c' w' drained'
      | None => None
      end
  end.

(** What [create_driver] can do to the world: nothing, or one constructor
    call under the next identity. *)
Inductive created (w : world) : res driver_id → world → Prop :=
| created_early e : created w (Raise e) w
| created_fail l e :
    env (trace w) (EvLaunch (next_id w) l) = Fail e →
    created w (Raise e)
      (mkWorld (driver_pool w)
               (trace w ++ [(EvLaunch (next_id w) l, Fail e)])
               (S (next_id w)))
| created_ok l v :
    env (trace w) (EvLaunch (next_id w) l) = Ok v →
    created w (Ret (next_id w))
      (mkWorld (driver_pool w)
               (trace w ++ [(EvLaunch (next_id w) l, Ok v)])
               (S (next_id w))).

(** What the [try] body can do: calls on its own driver, and writes to the
    two keys of [meta]. *)
Definition drives (d : driver_id) (f f' : frame) : Prop :=
  driver_pool f'.1 = driver_pool f.1 ∧
  next_id f'.1 = next_id f.1 ∧
  (∃ cs, trace f'.1 = trace f.1 ++ cs
         ∧ Forall (fun x => ∃ c, x.1 = EvCommand d c) cs) ∧
  (∀ k, k ≠ "screenshot" → k ≠ "driver" → f'.2 !! k = f.2 !! k).

Definition preserves {A} (d : driver_id) (m : M frame A) : Prop :=
  ∀ f r f', m f = (r, f') → drives d f f'.

(** Every driver that was started is in exactly one place: with a task,
    with [spider_closed], dropped by [spider_closed], or idle. *)
Definition accounted (s : system) : Prop :=
  checked_out s ++ closer_held (closing s) ++ drained s ++ idle s
    ≡ₚ launched (trace (sys_world s)).

Definition fresh_ids (w : world) : Prop :=
  NoDup (launched (trace w)) ∧ ∀ d, d ∈ launched (trace w) → d < next_id w.

(** What holds in every state of a crawl: the accounting above, fresh
    identities, and the drivers of [__init__] first among those started. *)
Definition invariant (self : SeleniumMiddleware) (s : system) : Prop :=
  accounted s ∧
  fresh_ids (sys_world s) ∧
  ∃ extra, launched (trace (sys_world s))
           = seq 0 (Z.to_nat (pool_size self)) ++ extra.

(** *** [from_crawler] *)

(** [cls(...)] with [driver_arguments] being [None]: the first
    [create_driver] imports the driver's modules and then fails on
    [for argument in self.driver_arguments]. *)
Definition init_without_arguments (self : SeleniumMiddleware) (w : world)
  : startup * world :=
  let w0 := set_pool (Queue_new (pool_size self)) w in
  match Z.to_nat (pool_size self) with
  | O => (StartedWithoutArguments self, w0)
  | S _ =>
      let webdriver_base_path := "selenium.webdriver." +:+ driver_name self in
      match (let* _ := import_module (webdriver_base_path +:+ ".webdriver") in
             import_module (webdriver_base_path +:+ ".options")) w0 with
      | (Raise e, w1) => (StartupRaised (InitRaised e), w1)
      | (Ret _, w1) =>
          (StartupRaised
             (ArgumentsTypeError "'NoneType' object is not iterable"), w1)
      end
  end.

Definition from_crawler (crawler : Crawler) (w : world)
  : startup * Crawler * world :=
  let driver_name := SELENIUM_DRIVER_NAME (settings crawler) in
  let driver_executable_path :=
    SELENIUM_DRIVER_EXECUTABLE_PATH (settings crawler) in
  let browser_executable_path :=
    SELENIUM_BROWSER_EXECUTABLE_PATH (settings crawler) in
  let command_executor := SELENIUM_COMMAND_EXECUTOR (settings crawler) in
  let driver_arguments := SELENIUM_DRIVER_ARGUMENTS (settings crawler) in
  let pool_size := default 5%Z (SELENIUM_DRIVER_POOL_SIZE (settings crawler)) in
  let queue_timeout :=
    default 300%Z (SELENIUM_QUEUE_TIMEOUT (settings crawler)) in
  match driver_name with
  | None =>
      (StartupRaised (NotConfigured "SELENIUM_DRIVER_NAME must be set"),
       crawler, w)
  | Some driver_name =>
      let middleware arguments :=
        mkSeleniumMiddleware driver_name driver_executable_path
          browser_executable_path command_executor arguments
          pool_size queue_timeout in
      let '(built, w') :=
        match driver_arguments with
        | Some arguments =>
            match __init__ (middleware arguments) w with
            | (Returned _, w') => (Started (middleware arguments), w')
            | (Raised e, w') => (StartupRaised (InitRaised e), w')
            | (Blocked, w') => (StartupBlocked, w')
            end
        | None => init_without_arguments (middleware []) w
        end in
      match built with
      | Started _ | StartedWithoutArguments _ =>
          (* crawler.signals.connect(middleware.spider_closed, ...) *)
          (built, mkCrawler (settings crawler) true, w')
      | _ => (built, crawler, w')
      end
  end.

(** The crawler sends [spider_closed] to the receiver that is connected;
    the outcome is the receiver's. *)
Definition close_spider (crawler : Crawler) (w : world) : outcome * world :=
  if spider_closed_connected crawler then spider_closed w
  else (Returned None, w).

(** The engine passes one request after the other to [process_request]; a
    call that waits forever is the last. *)
Fixpoint serve (self : SeleniumMiddleware) (requests : list Request)
  (w : world) : list (outcome * Request) * world :=
  match requests with
  | [] => ([], w)
  | request :: rest =>
      let '(out, request', w1) := process_request self request w in
      match out with
      | Blocked => ([(out, request')], w1)
      | _ =>
          let '(outs, w2) := serve self rest w1 in
          ((out, request') :: outs, w2)
      end
  end.

(** The commands [cs] are put to driver [d] one after the other up to the
    first that raises: the history afterwards, and that command with its
    exception. *)
Fixpoint attempt (d : driver_id) (cs : list command) (h : history)
  : history * option (command * exn) :=
  match cs with
  | [] => (h, None)
  | c :: cs' =>
      match env h (EvCommand d c) with
      | Ok v => attempt d cs' (h ++ [(EvCommand d c, Ok v)])
      | Fail e => (h ++ [(EvCommand d c, Fail e)], Some (c, e))
      end
  end.

(** The browser answers every command. *)
Definition healthy : Prop := ∀ h d c, ∃ v, env h (EvCommand d c) = Ok v.

(** Every [quit] returns. *)
Definition quits_return : Prop := ∀ h d, ∃ v, env h (EvQuit d) = Ok v.

(** [quit] is called on the drivers [ds] one after the other up to the
    first call that raises: the history afterwards, the drivers it was
    called on, and the exception if there is one. *)
Fixpoint quit_each (ds : list driver_id) (h : history)
  : history * list driver_id * option exn :=
  match ds with
  | [] => (h, [], None)
  | d :: ds' =>
      match env h (EvQuit d) with
      | Ok v =>
          let '(h', called, failure) :=
            quit_each ds' (h ++ [(EvQuit d, Ok v)]) in
          (h', d :: called, failure)
      | Fail e => (h ++ [(EvQuit d, Fail e)], [d], Some e)
      end
  end.

(** * Properties *)

(** ** Queue *)

Lemma Queue_put_not_full q x :
  Queue_full q = false → Queue_put q x = Some (mkQueue (maxsize q) (items q ++ [x])).
Proof. unfold Queue_put. by intros ->. Qed.

Lemma Queue_put_Some q x q' :
  Queue_put q x = Some q' → maxsize q' = maxsize q ∧ items q' = items q ++ [x].
Proof.
  unfold Queue_put. destruct (Queue_full q); [done|].
  intros [= <-]. done.
Qed.

Lemma Queue_full_room q :
  (maxsize q ≤ 0 ∨ Z.of_nat (length (items q)) < maxsize q)%Z →
  Queue_full q = false.
Proof.
  unfold Queue_full. intros [H|H].
  - replace (0 <? maxsize q)%Z with false; [done|]. symmetry. by apply Z.ltb_ge.
  - replace (maxsize q <=? Z.of_nat (length (items q)))%Z with false.
    + by rewrite andb_false_r.
    + symmetry. by apply Z.leb_gt.
Qed.

Lemma Queue_get_timeout_cons q t d rest :
  (0 ≤ t)%Z → items q = d :: rest →
  Queue_get q (Some t) = Got d (mkQueue (maxsize q) rest).
Proof.
  intros Ht Hq. unfold Queue_get.
  replace (t <? 0)%Z with false by (symmetry; by apply Z.ltb_ge).
  by rewrite Hq.
Qed.

(** ** [create_driver] *)

Lemma arguments_fold_add l o :
  arguments (fold_left add_argument l o) = arguments o ++ l.
Proof.
  revert o. induction l as [|a l IH]; intros o; simpl.
  - by rewrite app_nil_r.
  - rewrite IH. simpl. by rewrite <- app_assoc.
Qed.

Lemma binary_location_fold_add l o :
  binary_location (fold_left add_argument l o) = binary_location o.
Proof. revert o. induction l as [|a l IH]; intros o; simpl; [done|]. by rewrite IH. Qed.

Lemma build_options_eq self :
  build_options self =
  mkOptions (if truthy (browser_executable_path self)
             then browser_executable_path self else None)
            (driver_arguments self).
Proof.
  unfold build_options.
  pose proof (arguments_fold_add (driver_arguments self)) as Ha.
  pose proof (binary_location_fold_add (driver_arguments self)) as Hb.
  destruct (truthy (browser_executable_path self));
    match goal with
    | |- fold_left _ _ ?o = _ =>
        specialize (Ha o); specialize (Hb o);
        destruct (fold_left add_argument (driver_arguments self) o);
        simpl in *; by subst
    end.
Qed.

Lemma construct_eq l w :
  construct l w =
  match env (trace w) (EvLaunch (next_id w) l) with
  | Ok v => (Ret (next_id w),
             mkWorld (driver_pool w)
                     (trace w ++ [(EvLaunch (next_id w) l, Ok v)])
                     (S (next_id w)))
  | Fail e => (Raise e,
               mkWorld (driver_pool w)
                       (trace w ++ [(EvLaunch (next_id w) l, Fail e)])
                       (S (next_id w)))
  end.
Proof.
  unfold construct, ask, log. simpl.
  by destruct (env (trace w) (EvLaunch (next_id w) l)).
Qed.

Lemma construct_created l w : created w (construct l w).1 (construct l w).2.
Proof.
  rewrite construct_eq.
  destruct (env (trace w) (EvLaunch (next_id w) l)) eqn:E; simpl.
  - by apply created_ok.
  - by apply created_fail.
Qed.

Lemma create_driver_created self w :
  created w (create_driver self w).1 (create_driver self w).2.
Proof.
  unfold create_driver, bind, import_module, ret, raise.
  repeat match goal with
  | |- context [if ?b then _ else _] => destruct b; simpl
  | |- context [match ?o with Some _ => _ | None => _ end] => destruct o; simpl
  end;
  first [ apply construct_created | apply created_early ].
Qed.

Lemma created_pool w r w' : created w r w' → driver_pool w' = driver_pool w.
Proof. by destruct 1. Qed.

Lemma created_next_id w r w' : created w r w' → next_id w ≤ next_id w'.
Proof. destruct 1; simpl; lia. Qed.

Lemma quits_app h h' : quits (h ++ h') = quits h ++ quits h'.
Proof. apply omap_app. Qed.

Lemma launched_app h h' : launched (h ++ h') = launched h ++ launched h'.
Proof. apply omap_app. Qed.

Lemma launches_app h h' : launches (h ++ h') = launches h ++ launches h'.
Proof. apply omap_app. Qed.

Lemma created_quits w r w' : created w r w' → quits (trace w') = quits (trace w).
Proof. destruct 1; simpl; rewrite ?quits_app; simpl; by rewrite ?app_nil_r. Qed.

Lemma created_launched w r w' :
  created w r w' →
  launched (trace w') =
  launched (trace w) ++ match r with Ret d => [d] | Raise _ => [] end.
Proof. destruct 1; simpl; rewrite ?launched_app; simpl; by rewrite ?app_nil_r. Qed.

Lemma created_Ret w d w' :
  created w (Ret d) w' → d = next_id w ∧ next_id w' = S d.
Proof. by inversion 1. Qed.

Lemma created_fresh w r w' :
  created w r w' → fresh_ids w → fresh_ids w'.
Proof.
  intros Hc [Hnd Hlt]. pose proof (created_launched _ _ _ Hc) as Hl.
  pose proof (created_next_id _ _ _ Hc) as Hn.
  unfold fresh_ids. rewrite Hl. destruct r as [d|e].
  - apply created_Ret in Hc as [-> Hn']. split.
    + apply NoDup_app. split_and!; [done| |apply NoDup_singleton].
      intros x Hx ->%list_elem_of_singleton. apply Hlt in Hx. lia.
    + intros x [Hx| ->%list_elem_of_singleton]%elem_of_app; [|lia].
      apply Hlt in Hx. lia.
  - rewrite app_nil_r. split; [done|]. intros x Hx. apply Hlt in Hx. lia.
Qed.

(** ** [quit] *)

Lemma quit_eq d w :
  quit d w =
  match env (trace w) (EvQuit d) with
  | Ok v => (Ret (), log (EvQuit d) (Ok v) w)
  | Fail e => (Raise e, log (EvQuit d) (Fail e) w)
  end.
Proof. unfold quit, bind, ask, ret. by destruct (env (trace w) (EvQuit d)). Qed.

Lemma quits_log_quit d rp w :
  quits (trace (log (EvQuit d) rp w)) = quits (trace w) ++ [d].
Proof. unfold log. simpl. by rewrite quits_app. Qed.

Lemma launched_log_quit d rp w :
  launched (trace (log (EvQuit d) rp w)) = launched (trace w).
Proof. unfold log. simpl. rewrite launched_app. simpl. by rewrite app_nil_r. Qed.

(** The handler of [except Exception] up to its [put]: [quit] is called,
    and [create_driver] only when [quit] returned. *)
Lemma quit_create_driver self d w r w3 :
  (let* _ := quit d in create_driver self) w = (r, w3) →
  ∃ rp, rp = env (trace w) (EvQuit d) ∧
        created (log (EvQuit d) rp w) r w3 ∧
        (∀ v, rp = Ok v → create_driver self (log (EvQuit d) rp w) = (r, w3)) ∧
        (∀ e, rp = Fail e → r = Raise e ∧ w3 = log (EvQuit d) rp w).
Proof.
  unfold bind at 1. rewrite quit_eq.
  destruct (env (trace w) (EvQuit d)) as [v|e] eqn:E.
  - intros Hc. exists (Ok v). split_and!; [done| |done|done].
    pose proof (create_driver_created self (log (EvQuit d) (Ok v) w)) as H.
    by rewrite Hc in H.
  - intros [= <- <-]. exists (Fail e). split_and!; [done| |done|].
    + apply created_early.
    + by intros e' [= <-].
Qed.

(** ** The [try] body *)

Lemma drives_refl d f : drives d f f.
Proof.
  unfold drives. split_and!; try done.
  exists []. by rewrite app_nil_r.
Qed.

Lemma drives_trans d f1 f2 f3 : drives d f1 f2 → drives d f2 f3 → drives d f1 f3.
Proof.
  intros (Hp1 & Hn1 & (cs1 & Ht1 & Hc1) & Hm1) (Hp2 & Hn2 & (cs2 & Ht2 & Hc2) & Hm2).
  unfold drives. split_and!.
  - congruence.
  - congruence.
  - exists (cs1 ++ cs2). rewrite Ht2, Ht1, app_assoc. split; [done|].
    by apply Forall_app.
  - intros k H1 H2. rewrite Hm2, Hm1; done.
Qed.

Lemma preserves_ret {A} d (a : A) : preserves d (ret a).
Proof. intros f r f' [= <- <-]. apply drives_refl. Qed.

Lemma preserves_bind {A B} d (m : M frame A) (k : A → M frame B) :
  preserves d m → (∀ a, preserves d (k a)) → preserves d (bind m k).
Proof.
  intros Hm Hk f r f'. unfold bind.
  destruct (m f) as [[a|e] f1] eqn:E.
  - intros Hka. eapply drives_trans; [by eapply Hm | by eapply Hk].
  - intros [= <- <-]. by eapply Hm.
Qed.

Lemma preserves_call d c : preserves d (call d c).
Proof.
  intros [w m] r f'. unfold call, ask.
  destruct (env (trace w) (EvCommand d c)); intros [= <- <-];
    (unfold drives; simpl; split_and!; try done;
     eexists [_]; split; [done|]; apply Forall_singleton; by eexists).
Qed.

Lemma preserves_meta_setitem d k v :
  k = "screenshot" ∨ k = "driver" → preserves d (meta_setitem k v).
Proof.
  intros Hk [w m] r f' [= <- <-]. unfold drives. simpl. split_and!; try done.
  - exists []. by rewrite app_nil_r.
  - intros k' H1 H2. apply lookup_insert_ne. by destruct Hk as [-> | ->].
Qed.

Lemma preserves_when d c body : preserves d body → preserves d (when c body).
Proof. destruct c; [done|]. intros _. apply preserves_ret. Qed.

Lemma preserves_for_each {A} d (xs : list A) body :
  (∀ x, preserves d (body x)) → preserves d (for_each xs body).
Proof.
  intros Hb. induction xs as [|x xs IH]; simpl.
  - apply preserves_ret.
  - apply preserves_bind; [apply Hb | by intros _].
Qed.

Local Ltac preserve :=
  repeat first
    [ apply preserves_bind; [|intros ?]
    | apply preserves_call
    | apply preserves_ret
    | apply preserves_when
    | apply preserves_for_each; intros [? ?]
    | apply preserves_meta_setitem; by auto ].

Lemma try_body_preserves d request : preserves d (try_body d request).
Proof.
  unfold try_body. preserve.
  destruct (wait_until request); preserve.
Qed.

Lemma drives_quits d f f' : drives d f f' → quits (trace f'.1) = quits (trace f.1).
Proof.
  intros (_ & _ & (cs & -> & Hcs) & _). rewrite quits_app.
  replace (quits cs) with (@nil driver_id); [by rewrite app_nil_r|].
  symmetry. induction Hcs as [|[ev rp] cs [c Hc] _ IH]; [done|].
  simpl in *. by subst.
Qed.

Lemma drives_launched d f f' :
  drives d f f' → launched (trace f'.1) = launched (trace f.1).
Proof.
  intros (_ & _ & (cs & -> & Hcs) & _). rewrite launched_app.
  replace (launched cs) with (@nil driver_id); [by rewrite app_nil_r|].
  symmetry. induction Hcs as [|[ev rp] cs [c Hc] _ IH]; [done|].
  simpl in *. by subst.
Qed.

(** The body against the specification's sequence of steps. *)

Lemma call_Ok d c q h n m v :
  env h (EvCommand d c) = Ok v →
  call d c (mkWorld q h n, m) =
  (Ret v, (mkWorld q (h ++ [(EvCommand d c, Ok v)]) n, m)).
Proof. intros H. unfold call, ask, log. simpl. by rewrite H. Qed.

Lemma call_Fail d c q h n m e :
  env h (EvCommand d c) = Fail e →
  call d c (mkWorld q h n, m) =
  (Raise e, (mkWorld q (h ++ [(EvCommand d c, Fail e)]) n, m)).
Proof. intros H. unfold call, ask, log. simpl. by rewrite H. Qed.

Lemma answers_app d cs1 cs2 h :
  answers d (cs1 ++ cs2) h =
  '(h1, vs1) ← answers d cs1 h;
  '(h2, vs2) ← answers d cs2 h1;
  Some (h2, vs1 ++ vs2).
Proof.
  revert h. induction cs1 as [|c cs1 IH]; intros h; simpl.
  - by destruct (answers d cs2 h) as [[h2 vs2]|].
  - destruct (env h (EvCommand d c)); [|done]. rewrite IH.
    destruct (answers d cs1 _) as [[h1 vs1]|]; [|done]. simpl.
    by destruct (answers d cs2 h1) as [[h2 vs2]|].
Qed.

Lemma answers_one d c h :
  answers d [c] h =
  match env h (EvCommand d c) with
  | Ok v => Some (h ++ [(EvCommand d c, Ok v)], [v])
  | Fail _ => None
  end.
Proof. simpl. by destruct (env h (EvCommand d c)). Qed.

Lemma answers_extends d cs h h' vs :
  answers d cs h = Some (h', vs) →
  ∃ new, h' = h ++ new ∧ map fst new = map (EvCommand d) cs
         ∧ map snd new = map Ok vs.
Proof.
  revert h h' vs. induction cs as [|c cs IH]; intros h h' vs; simpl.
  - intros [= <- <-]. exists []. by rewrite app_nil_r.
  - destruct (env h (EvCommand d c)) as [v|] eqn:E; [|done].
    destruct (answers d cs _) as [[h1 vs1]|] eqn:E1; [|done].
    intros [= <- <-]. apply IH in E1 as (new & -> & Hf & Hs).
    exists ((EvCommand d c, Ok v) :: new). rewrite <- app_assoc. simpl.
    by rewrite Hf, Hs.
Qed.

Lemma for_each_cookies_answers d cks q h n m h1 vs1 :
  answers d (map (fun '(name, v) => AddCookie name v) cks) h = Some (h1, vs1) →
  for_each cks (fun '(cookie_name, cookie_value) =>
                  let* _ := call d (AddCookie cookie_name cookie_value) in
                  ret ()) (mkWorld q h n, m)
  = (Ret (), (mkWorld q h1 n, m)).
Proof.
  revert h vs1. induction cks as [|[name v] cks IH]; intros h vs1; simpl.
  - by intros [= <- <-].
  - destruct (env h (EvCommand d (AddCookie name v))) as [x|] eqn:E; [|done].
    destruct (answers d _ _) as [[h2 vs2]|] eqn:E2; [|done].
    intros [= <- <-]. unfold bind at 1. unfold bind at 1.
    rewrite (call_Ok _ _ _ _ _ _ _ E). simpl. by eapply IH.
Qed.

Lemma answers_app_Some d cs1 cs2 h h' vs :
  answers d (cs1 ++ cs2) h = Some (h', vs) →
  ∃ h1 vs1 vs2, answers d cs1 h = Some (h1, vs1)
                ∧ answers d cs2 h1 = Some (h', vs2) ∧ vs = vs1 ++ vs2.
Proof.
  rewrite answers_app.
  destruct (answers d cs1 h) as [[h1 vs1]|]; [|done]. simpl.
  destruct (answers d cs2 h1) as [[h2 vs2]|] eqn:E2; [|done]. simpl.
  intros [= <- <-]. by exists h1, vs1, vs2.
Qed.

Lemma answers_one_Some d c h h' vs :
  answers d [c] h = Some (h', vs) →
  ∃ v, env h (EvCommand d c) = Ok v ∧ h' = h ++ [(EvCommand d c, Ok v)] ∧ vs = [v].
Proof.
  rewrite answers_one. destruct (env h (EvCommand d c)) as [v|]; [|done].
  intros [= <- <-]. by exists v.
Qed.

Lemma answers_length d cs h h' vs :
  answers d cs h = Some (h', vs) → length vs = length cs.
Proof.
  intros (new & _ & Hf & Hs)%answers_extends.
  rewrite <- (length_map Ok vs), <- Hs, <- (length_map (EvCommand d) cs), <- Hf.
  by rewrite !length_map.
Qed.

Lemma try_body_answers d request q h n m h' vs :
  answers d (spec_steps request) h = Some (h', vs) →
  ∃ pre page_source current_url png,
    vs = pre ++ [page_source; current_url] ∧
    (screenshot request = true →
     (GetScreenshotAsPng, png) ∈ zip (spec_steps request) vs) ∧
    try_body d request (mkWorld q h n, m) =
    (Ret (mkHtmlResponse current_url (str_encode page_source) "utf-8"),
     (mkWorld q h' n,
      <["driver" := MetaDriver d]>
        (if screenshot request
         then <["screenshot" := MetaScreenshot png]> m else m))).
Proof.
  unfold spec_steps. intros H.
  apply answers_app_Some in H as (h1 & vs1 & r1 & H1 & H & ->).
  apply answers_app_Some in H as (h2 & vs2 & r2 & H2 & H & ->).
  apply answers_app_Some in H as (h3 & vs3 & r3 & H3 & H & ->).
  apply answers_app_Some in H as (h4 & vs4 & r4 & H4 & H & ->).
  apply answers_app_Some in H as (h5 & vs5 & r5 & H5 & H & ->).
  apply answers_one_Some in H1 as (v1 & E1 & -> & ->).
  change [PageSource; CurrentUrl] with ([PageSource] ++ [CurrentUrl]) in H.
  apply answers_app_Some in H as (h6 & vs6 & r6 & H6 & H7 & ->).
  apply answers_one_Some in H6 as (src & E6 & -> & ->).
  apply answers_one_Some in H7 as (cur & E7 & -> & ->).
  pose proof (answers_length _ _ _ _ _ H2) as L2.
  pose proof (answers_length _ _ _ _ _ H3) as L3.
  exists ([v1] ++ vs2 ++ vs3 ++ vs4 ++ vs5), src, cur.
  assert (match wait_until request with
          | Some condition =>
              let* _ := call d (WaitUntil condition (wait_time request)) in
              ret ()
          | None => ret ()
          end (mkWorld q h2 n, m) = (Ret (), (mkWorld q h3 n, m))) as Ewait.
  { destruct (wait_until request).
    - apply answers_one_Some in H3 as (v3 & E3 & -> & ->). unfold bind.
      by rewrite (call_Ok _ _ _ _ _ _ _ E3).
    - simpl in H3. by injection H3 as <- <-. }
  assert (∃ png,
    (screenshot request = true → vs4 = [png]) ∧
    when (screenshot request)
      (let* png := call d GetScreenshotAsPng in
       meta_setitem "screenshot" (MetaScreenshot png)) (mkWorld q h3 n, m)
    = (Ret (), (mkWorld q h4 n,
                if screenshot request
                then <["screenshot" := MetaScreenshot png]> m else m)))
    as (png & Hpng & Eshot).
  { destruct (screenshot request).
    - apply answers_one_Some in H4 as (png & E4 & -> & ->). exists png.
      split; [done|]. simpl. unfold bind.
      by rewrite (call_Ok _ _ _ _ _ _ _ E4).
    - simpl in H4. injection H4 as <- <-. by exists EmptyString. }
  assert (∀ m',
    when (truthy (script request))
      (let* _ := call d (ExecuteScript (default EmptyString (script request))) in
       ret ()) (mkWorld q h4 n, m')
    = (Ret (), (mkWorld q h5 n, m'))) as Escript.
  { intros m'. destruct (truthy (script request)).
    - apply answers_one_Some in H5 as (v5 & E5 & -> & ->). simpl. unfold bind.
      by rewrite (call_Ok _ _ _ _ _ _ _ E5).
    - simpl in H5. by injection H5 as <- <-. }
  exists png. split_and!.
  - by rewrite <- !app_assoc.
  - intros Hs. rewrite Hs, (Hpng Hs).
    rewrite !zip_with_app by done. rewrite !elem_of_app.
    right. right. right. left. simpl. by left.
  - unfold try_body.
    unfold bind at 1. rewrite (call_Ok _ _ _ _ _ _ _ E1).
    unfold bind at 1. rewrite (for_each_cookies_answers _ _ _ _ _ _ _ _ H2).
    unfold bind at 1. rewrite Ewait.
    unfold bind at 1. rewrite Eshot.
    unfold bind at 1. rewrite Escript.
    unfold bind at 1. rewrite (call_Ok _ _ _ _ _ _ _ E6).
    unfold bind at 1. simpl.
    unfold bind at 1. by rewrite (call_Ok _ _ _ _ _ _ _ E7).
Qed.

(** ** Claims about [create_driver] *)

(** C6 (what the code does): in auto-managed mode, with neither
    [driver_executable_path] nor [command_executor] set and a driver name
    that does not lower-case to ['chrome'], [create_driver] reaches
    [return driver] with [driver] never assigned: it raises
    [UnboundLocalError], starts nothing and leaves the world as it was. *)
Theorem create_driver_auto_not_chrome_unbound self w :
  driver_executable_path self = None →
  command_executor self = None →
  lower (driver_name self) ≠ "chrome" →
  importable (("selenium.webdriver." +:+ driver_name self) +:+ ".webdriver") = true →
  importable (("selenium.webdriver." +:+ driver_name self) +:+ ".options") = true →
  importable "webdriver_manager.chrome" = true →
  importable "selenium.webdriver.chrome.service" = true →
  create_driver self w = (Raise (UnboundLocalError "driver"), w).
Proof.
  intros Hp Hc Hn I1 I2 I3 I4.
  unfold create_driver, bind, import_module.
  rewrite I1, I2, Hp, Hc, I3, I4. simpl.
  destruct (String.eqb_spec (lower (driver_name self)) "chrome") as [E|_]; [done|].
  by rewrite andb_false_r.
Qed.

(** C7: for every configuration, [create_driver] makes at most one
    constructor call, and a call it makes is of the mode the configuration
    selects: the local driver class when [driver_executable_path] is set
    (whatever [command_executor] is), else the remote driver when
    [command_executor] is set, else the webdriver-manager branch; never a
    call of another mode.  When the driver's modules import, the local and
    the remote mode make exactly that call, with options that carry the
    browser binary path when it is set and the driver arguments in their
    order. *)
Theorem create_driver_selects_mode self w :
  let options :=
    mkOptions (if truthy (browser_executable_path self)
               then browser_executable_path self else None)
              (driver_arguments self) in
  ∃ new,
    launches (trace (create_driver self w).2) = launches (trace w) ++ new ∧
    length new ≤ 1 ∧
    (∀ d l, (d, l) ∈ new → mode_of_launch l = spec_mode self) ∧
    (importable (("selenium.webdriver." +:+ driver_name self) +:+ ".webdriver")
       = true →
     importable (("selenium.webdriver." +:+ driver_name self) +:+ ".options")
       = true →
     match spec_mode self with
     | LocalBinary =>
         ∃ path, driver_executable_path self = Some path ∧
           new = [(next_id w,
                   DriverKlass (driver_name self)
                     [("executable_path", KwStr path);
                      (driver_name self +:+ "_options", KwOptions options)])]
     | Remote =>
         ∃ executor, driver_executable_path self = None ∧
           command_executor self = Some executor ∧
           new = [(next_id w, WebdriverRemote executor options)]
     | AutoManaged =>
         driver_executable_path self = None ∧ command_executor self = None ∧
         new = if importable "webdriver_manager.chrome"
                  && importable "selenium.webdriver.chrome.service"
                  && String.eqb (lower (driver_name self)) "chrome"
               then [(next_id w, WebdriverChrome options)] else []
     end).
Proof.
  intros options.
  unfold create_driver, bind, import_module, spec_mode.
  destruct (importable (("selenium.webdriver." +:+ driver_name self)
                        +:+ ".webdriver")); simpl;
    [|exists []; simpl; split_and!;
      [by rewrite app_nil_r | lia | by intros d l ?%not_elem_of_nil
      | intros ? ?; first [done | by split_and!]]].
  destruct (importable (("selenium.webdriver." +:+ driver_name self)
                        +:+ ".options")); simpl;
    [|exists []; simpl; split_and!;
      [by rewrite app_nil_r | lia | by intros d l ?%not_elem_of_nil
      | intros ? ?; first [done | by split_and!]]].
  rewrite build_options_eq. fold options.
  destruct (driver_executable_path self) as [path|];
    [|destruct (command_executor self) as [executor|]].
  - rewrite construct_eq.
    eexists [_]. split_and!.
    + destruct (env _ _); simpl; rewrite launches_app; simpl; done.
    + done.
    + by intros d l [= -> ->]%list_elem_of_singleton.
    + intros _ _. by exists path.
  - rewrite construct_eq.
    eexists [_]. split_and!.
    + destruct (env _ _); simpl; rewrite launches_app; simpl; done.
    + done.
    + by intros d l [= -> ->]%list_elem_of_singleton.
    + intros _ _. by exists executor.
  - destruct (importable "webdriver_manager.chrome"); simpl;
      [destruct (importable "selenium.webdriver.chrome.service"); simpl|];
      [| exists []; simpl; split_and!;
      [by rewrite app_nil_r | lia | by intros d l ?%not_elem_of_nil
      | intros ? ?; first [done | by split_and!]] ..].
    destruct (String.eqb_spec (lower (driver_name self)) "chrome") as [E|NE].
    + assert (driver_name self ≠ EmptyString) as Hne.
      { intros Hn. by rewrite Hn in E. }
      destruct (String.eqb_spec (driver_name self) EmptyString) as [?|_]; [done|].
      simpl. rewrite construct_eq. eexists [_]. split_and!.
      * destruct (env _ _); simpl; rewrite launches_app; simpl; done.
      * done.
      * by intros d l [= -> ->]%list_elem_of_singleton.
      * done.
    + rewrite andb_false_r. simpl.
      exists []; simpl; split_and!;
      [by rewrite app_nil_r | lia | by intros d l ?%not_elem_of_nil
      | intros ? ?; first [done | by split_and!]].
Qed.

(** ** Claims about [process_request] *)

(** C3 (what the code does): for every browser-flagged request that finds
    the queue empty, [driver_pool.get] raises and the clause [except Empty]
    evaluates the name [Empty], which the module never imports:
    [process_request] raises [NameError] to its caller and does not return
    [None]; the world and the request are unchanged. *)
Theorem process_request_exhausted_NameError self request w :
  is_SeleniumRequest request = true →
  items (driver_pool w) = [] →
  process_request self request w = (Raised (NameError "Empty"), request, w).
Proof.
  intros Hr Hq. unfold process_request, acquire, Queue_get.
  rewrite Hr, Hq. simpl.
  by destruct (queue_timeout self <? 0)%Z.
Qed.

(** C9 (amended): [process_request] leaves every field of the request
    as it was except the [meta] dict, and in [meta] it writes no key other
    than ['screenshot'] and ['driver']. *)
Theorem process_request_writes_only_meta self request w :
  let request' := (process_request self request w).1.2 in
  is_SeleniumRequest request' = is_SeleniumRequest request ∧
  url request' = url request ∧
  cookies request' = cookies request ∧
  wait_time request' = wait_time request ∧
  wait_until request' = wait_until request ∧
  screenshot request' = screenshot request ∧
  script request' = script request ∧
  (is_SeleniumRequest request = false → request' = request) ∧
  ∀ k, k ≠ "screenshot" → k ≠ "driver" → meta request' !! k = meta request !! k.
Proof.
  unfold process_request.
  destruct (is_SeleniumRequest request) eqn:Hr; simpl; [|done].
  destruct (acquire self w) as [[out|driver] w1]; simpl; [done|].
  destruct (try_body driver request (w1, meta request)) as [r [w2 m]] eqn:Et.
  assert (∀ k, k ≠ "screenshot" → k ≠ "driver" → m !! k = meta request !! k)
    as Hm by (apply try_body_preserves in Et as (_ & _ & _ & Hm); done).
  destruct r as [response|e].
  - destruct (finally_put _ _ _) as [out w3]. simpl. by split_and!.
  - destruct (bind _ _ w2) as [[new|e'] w3].
    + destruct (Queue_put (driver_pool w3) new); simpl;
        [destruct (finally_put _ _ _) as [out w4]|]; simpl; by split_and!.
    + destruct (finally_put _ _ _) as [out w4]. simpl. by split_and!.
Qed.

Lemma try_body_wait_raises d request q h n m condition h1 vs1 e :
  wait_until request = Some condition →
  answers d ([Get (url request)]
             ++ map (fun '(name, v) => AddCookie name v) (cookies request)) h
    = Some (h1, vs1) →
  env h1 (EvCommand d (WaitUntil condition (wait_time request))) = Fail e →
  try_body d request (mkWorld q h n, m) =
  (Raise e,
   (mkWorld q (h1 ++ [(EvCommand d (WaitUntil condition (wait_time request)),
                       Fail e)]) n, m)).
Proof.
  intros Hw H E.
  apply answers_app_Some in H as (h0 & vs0 & r0 & H0 & H & ->).
  apply answers_one_Some in H0 as (v0 & E0 & -> & ->).
  unfold try_body.
  unfold bind at 1. rewrite (call_Ok _ _ _ _ _ _ _ E0).
  unfold bind at 1. rewrite (for_each_cookies_answers _ _ _ _ _ _ _ _ H).
  rewrite Hw. unfold bind. by rewrite (call_Fail _ _ _ _ _ _ _ E).
Qed.

Lemma process_request_raise_not_returned self request w driver w1 e w2 m :
  is_SeleniumRequest request = true →
  acquire self w = (inr driver, w1) →
  try_body driver request (w1, meta request) = (Raise e, (w2, m)) →
  ∀ r, (process_request self request w).1.1 ≠ Returned r.
Proof.
  intros Hr Ha Et r. unfold process_request, finally_put.
  rewrite Hr, Ha, Et. simpl.
  destruct (bind _ _ w2) as [[new|e'] w3].
  - destruct (Queue_put (driver_pool w3) new) as [q|]; simpl; [|done].
    by destruct (Queue_put q driver).
  - by destruct (Queue_put (driver_pool w3) driver).
Qed.

Lemma acquire_head self w driver rest :
  (0 ≤ queue_timeout self)%Z →
  items (driver_pool w) = driver :: rest →
  acquire self w =
  (inr driver, set_pool (mkQueue (maxsize (driver_pool w)) rest) w).
Proof.
  intros Ht Hq. unfold acquire.
  by rewrite (Queue_get_timeout_cons _ _ _ _ Ht Hq).
Qed.

(** C1 (what the code does): when the body of the [try] raises, the
    handler calls [quit] on the driver and, when that returns, builds a
    replacement, and then the [finally] clause puts the driver that failed
    into the queue as well:
    whenever the call comes back to its caller, the failed driver has been
    quit and is the last idle entry of the queue; otherwise the call waits
    for room in the queue and raises nothing. *)
Theorem process_request_failure_requeues_failed self request w driver rest
        e w2 m :
  is_SeleniumRequest request = true →
  (0 ≤ queue_timeout self)%Z →
  items (driver_pool w) = driver :: rest →
  try_body driver request
    (set_pool (mkQueue (maxsize (driver_pool w)) rest) w, meta request)
    = (Raise e, (w2, m)) →
  let out := (process_request self request w).1.1 in
  let w' := (process_request self request w).2 in
  driver ∈ quits (trace w') ∧
  (out = Blocked
   ∨ (∃ e', out = Raised e') ∧ last (items (driver_pool w')) = Some driver).
Proof.
  intros Hr Ht Hq Et.
  pose proof (acquire_head self w driver rest Ht Hq) as Ha.
  unfold process_request, finally_put. rewrite Hr, Ha, Et. simpl.
  destruct (bind _ _ w2) as [r w3] eqn:Eh.
  apply quit_create_driver in Eh as (rp & _ & Hc & _).
  assert (driver ∈ quits (trace w3)) as Hquit.
  { rewrite (created_quits _ _ _ Hc), quits_log_quit.
    apply elem_of_app. right. by left. }
  destruct r as [new|e'].
  - destruct (Queue_put (driver_pool w3) new) as [q|] eqn:Ep; simpl; [|by auto].
    destruct (Queue_put q driver) as [q'|] eqn:Ep'; simpl; [|by auto].
    split; [done|]. right. split; [by eexists|].
    apply Queue_put_Some in Ep' as [_ ->]. by rewrite last_snoc.
  - destruct (Queue_put (driver_pool w3) driver) as [q'|] eqn:Ep'; simpl; [|by auto].
    split; [done|]. right. split; [by eexists|].
    apply Queue_put_Some in Ep' as [_ ->]. by rewrite last_snoc.
Qed.

(** ** [__init__] *)

Lemma fill_pool_spec self n w out w' :
  fill_pool self n w = (out, w') →
  (maxsize (driver_pool w) ≤ 0
   ∨ Z.of_nat (length (items (driver_pool w)) + n) ≤ maxsize (driver_pool w))%Z →
  out ≠ Blocked ∧
  (∀ r, out = Returned r → r = None) ∧
  maxsize (driver_pool w') = maxsize (driver_pool w) ∧
  quits (trace w') = quits (trace w) ∧
  ∃ new,
    items (driver_pool w') = items (driver_pool w) ++ new ∧
    launched (trace w') = launched (trace w) ++ new ∧
    (out = Returned None →
     new = seq (next_id w) n ∧ next_id w' = next_id w + n) ∧
    (∀ e, out = Raised e →
          length new < n ∧ ∃ w1, (create_driver self w1).1 = Raise e).
Proof.
  revert w. induction n as [|n IH]; intros w; simpl.
  - intros [= <- <-] _. split_and!; try done; [by intros r [= <-]|].
    exists []. rewrite !app_nil_r. split_and!; try done.
  - pose proof (create_driver_created self w) as Hc.
    destruct (create_driver self w) as [[d|e] w1] eqn:Ec; simpl in Hc.
    + intros Hf Hb.
      pose proof (created_pool _ _ _ Hc) as Hp.
      pose proof (created_quits _ _ _ Hc) as Hq.
      pose proof (created_launched _ _ _ Hc) as Hl.
      apply created_Ret in Hc as [-> Hn].
      rewrite Queue_put_not_full in Hf
        by (apply Queue_full_room; rewrite Hp; lia).
      apply IH in Hf as (H1 & H2 & H3 & H4 & new & H5 & H6 & H7 & H8).
      * simpl in *. rewrite Hp in *. split_and!; try done; [congruence|].
        exists (next_id w :: new). split_and!.
        -- rewrite H5. by rewrite <- app_assoc.
        -- rewrite H6, Hl. by rewrite <- app_assoc.
        -- intros Ho. destruct (H7 Ho) as [-> ->]. rewrite Hn. split; [done|lia].
        -- intros e Ho. destruct (H8 e Ho) as [Hlen Hw]. split; [simpl; lia|done].
      * simpl. rewrite Hp, length_app. simpl. lia.
    + intros [= <- <-] Hb.
      pose proof (created_pool _ _ _ Hc) as Hp.
      pose proof (created_quits _ _ _ Hc) as Hq.
      pose proof (created_launched _ _ _ Hc) as Hl.
      rewrite app_nil_r in Hl.
      split_and!; try done; [by rewrite Hp|].
      exists []. rewrite !app_nil_r. split_and!; try done; [by rewrite Hp|].
      intros e' [= <-]. split; [simpl; lia|]. exists w. by rewrite Ec.
Qed.

(** C5 (amended): [__init__] never waits; when it returns it has
    started exactly [pool_size] drivers, with consecutive fresh identities,
    and all of them are idle in the queue; when any [create_driver] raises,
    that exception leaves [__init__], fewer than [pool_size] drivers were
    started, no [quit] was called on any of them, and they are still in the
    queue of the abandoned object.  If no [create_driver] raises,
    [__init__] returns. *)
Theorem init_fills_pool_or_raises self w :
  let out := (__init__ self w).1 in
  let w' := (__init__ self w).2 in
  out ≠ Blocked ∧
  (∀ r, out = Returned r → r = None) ∧
  maxsize (driver_pool w') = pool_size self ∧
  quits (trace w') = quits (trace w) ∧
  launched (trace w') = launched (trace w) ++ items (driver_pool w') ∧
  (out = Returned None →
   items (driver_pool w') = seq (next_id w) (Z.to_nat (pool_size self))) ∧
  (∀ e, out = Raised e →
        length (items (driver_pool w')) < Z.to_nat (pool_size self)
        ∧ ∃ w1, (create_driver self w1).1 = Raise e) ∧
  ((∀ w1, ∃ d, (create_driver self w1).1 = Ret d) → out = Returned None).
Proof.
  unfold __init__.
  destruct (fill_pool _ _ _) as [out w'] eqn:Ef. simpl.
  apply fill_pool_spec in Ef
    as (H1 & H2 & H3 & H4 & new & H5 & H6 & H7 & H8); [|simpl; lia].
  simpl in *. subst new. split_and!; try done.
  - intros Ho. by destruct (H7 Ho) as [-> _].
  - intros Hall. destruct out as [r|e|]; [by rewrite (H2 r)| |done].
    destruct (H8 e eq_refl) as [_ [w1 Hw1]].
    destruct (Hall w1) as [d Hd]. congruence.
Qed.

(** ** [spider_closed] *)

Lemma quit_each_spec ds h h' called failure :
  quit_each ds h = (h', called, failure) →
  quits h' = quits h ++ called ∧
  launched h' = launched h ∧
  match failure with
  | None =>
      called = ds ∧
      ∃ vs, length vs = length ds ∧
            h' = h ++ zip (map EvQuit ds) (map Ok vs)
  | Some e =>
      ∃ pre d left vs,
        ds = pre ++ d :: left ∧ called = pre ++ [d] ∧
        length vs = length pre ∧
        h' = h ++ zip (map EvQuit pre) (map Ok vs) ++ [(EvQuit d, Fail e)]
  end.
Proof.
  revert h h' called failure.
  induction ds as [|d ds IH]; intros h h' called failure; simpl.
  - intros [= <- <- <-]. rewrite !app_nil_r. split_and!; try done.
    by exists [].
  - destruct (env h (EvQuit d)) as [v|e] eqn:E.
    + destruct (quit_each ds (h ++ [(EvQuit d, Ok v)]))
        as [[h1 called1] failure1] eqn:E1.
      intros [= <- <- <-].
      apply IH in E1 as (Hq & Hl & Hf).
      rewrite Hq, Hl, quits_app, launched_app. simpl.
      rewrite app_nil_r, <- app_assoc. split_and!; try done.
      destruct failure1 as [e|].
      * destruct Hf as (pre & d' & left & vs & -> & -> & Hlen & ->).
        exists (d :: pre), d', left, (v :: vs). simpl.
        split_and!; [done|done|by f_equal|by rewrite <- app_assoc].
      * destruct Hf as (-> & vs & Hlen & ->).
        split; [done|]. exists (v :: vs). simpl.
        split; [by f_equal|by rewrite <- app_assoc].
    + intros [= <- <- <-]. rewrite quits_app, launched_app. simpl.
      rewrite app_nil_r. split_and!; try done.
      by exists [], d, ds, [].
Qed.

Lemma quit_each_returns ds h :
  quits_return → (quit_each ds h).2 = None ∧ (quit_each ds h).1.2 = ds.
Proof.
  intros Hq. revert h. induction ds as [|d ds IH]; intros h; simpl; [done|].
  destruct (Hq h d) as [v ->].
  destruct (IH (h ++ [(EvQuit d, Ok v)])) as [H1 H2].
  destruct (quit_each ds _) as [[h1 called1] failure1]. simpl in *.
  by subst.
Qed.

Lemma spider_closed_loop_spec fuel w h' called failure :
  length (items (driver_pool w)) ≤ fuel →
  quit_each (items (driver_pool w)) (trace w) = (h', called, failure) →
  spider_closed_loop fuel w =
  (match failure with None => Returned None | Some e => Raised e end,
   mkWorld (mkQueue (maxsize (driver_pool w))
                    (drop (length called) (items (driver_pool w))))
           h' (next_id w)).
Proof.
  revert w h' called failure.
  induction fuel as [|fuel IH]; intros [[mx its] h n] h' called failure;
    cbn [driver_pool items maxsize trace next_id].
  - destruct its; simpl; [|lia]. by intros _ [= <- <- <-].
  - destruct its as [|d rest]; simpl.
    + by intros _ [= <- <- <-].
    + intros Hl. rewrite quit_eq. unfold set_pool, log. simpl.
      destruct (env h (EvQuit d)) as [v|e] eqn:E.
      * destruct (quit_each rest (h ++ [(EvQuit d, Ok v)]))
          as [[h1 called1] failure1] eqn:E1.
        intros [= <- <- <-].
        rewrite (IH _ h1 called1 failure1); [done|simpl; lia|done].
      * by intros [= <- <- <-].
Qed.

(** C4 (amended): [spider_closed] takes the idle drivers out of the
    queue one at a time, in queue order, and calls [quit] on each; it stops
    at the first [quit] that raises: that exception leaves [spider_closed]
    and the drivers behind stay in the queue, not quit.  When every [quit]
    returns, [spider_closed] returns, every driver that was idle has been
    quit once, in queue order, the queue is empty, and a second
    [spider_closed] changes nothing.  The pool is not closed afterwards: a
    [get] on the drained queue ends in [Empty] as on any empty queue, and a
    driver put into it afterwards is what the next [get] returns. *)
Theorem spider_closed_drains w :
  let out := (spider_closed w).1 in
  let w' := (spider_closed w).2 in
  out ≠ Blocked ∧
  maxsize (driver_pool w') = maxsize (driver_pool w) ∧
  next_id w' = next_id w ∧
  (∃ called,
     items (driver_pool w) = called ++ items (driver_pool w') ∧
     quits (trace w') = quits (trace w) ++ called ∧
     launched (trace w') = launched (trace w) ∧
     (∀ r, out = Returned r →
           r = None ∧ items (driver_pool w') = [] ∧
           ∃ vs, length vs = length called ∧
                 trace w' = trace w ++ zip (map EvQuit called) (map Ok vs)) ∧
     (∀ e, out = Raised e →
           ∃ pre d vs,
             called = pre ++ [d] ∧ length vs = length pre ∧
             trace w' = trace w ++ zip (map EvQuit pre) (map Ok vs)
                                ++ [(EvQuit d, Fail e)])) ∧
  (quits_return → out = Returned None) ∧
  (items (driver_pool w') = [] →
   spider_closed w' = (Returned None, w') ∧
   (∀ t, (0 ≤ t)%Z → Queue_get (driver_pool w') (Some t) = GetRaises Empty) ∧
   (∀ d, ∃ q, Queue_put (driver_pool w') d = Some q ∧ items q = [d] ∧
              ∀ t, (0 ≤ t)%Z →
                   Queue_get q (Some t) = Got d (mkQueue (maxsize q) []))).
Proof.
  unfold spider_closed.
  destruct (quit_each (items (driver_pool w)) (trace w))
    as [[h' called] failure] eqn:Eq.
  rewrite (spider_closed_loop_spec _ w h' called failure) by done.
  pose proof (quit_each_returns (items (driver_pool w)) (trace w)) as Hret.
  rewrite Eq in Hret.
  apply quit_each_spec in Eq as (Hq & Hl & Hf).
  cbn [fst snd driver_pool items maxsize trace next_id].
  split_and!.
  - by destruct failure.
  - done.
  - done.
  - exists called. split_and!; try done.
    + destruct failure as [e|].
      * destruct Hf as (pre & d & left & vs & -> & -> & _).
        rewrite (cons_middle d pre left), app_assoc.
        by rewrite drop_app_length.
      * destruct Hf as [-> _]. by rewrite drop_all, app_nil_r.
    + intros r Hr. destruct failure as [e|]; [done|].
      destruct Hf as (-> & vs & Hlen & ->). injection Hr as <-.
      rewrite drop_all. split_and!; try done. by exists vs.
    + intros e Hr. destruct failure as [e'|]; [|done].
      injection Hr as <-.
      destruct Hf as (pre & d & left & vs & _ & -> & Hlen & ->).
      by exists pre, d, vs.
  - intros Hall. destruct (Hret Hall) as [Hnone _]. simpl in Hnone.
    by rewrite Hnone.
  - intros Hempty. split_and!.
    + by rewrite Hempty.
    + intros t Ht. unfold Queue_get. cbn [items]. rewrite Hempty.
      by replace (t <? 0)%Z with false by (symmetry; by apply Z.ltb_ge).
    + intros d. eexists. split_and!.
      * apply Queue_put_not_full. unfold Queue_full. cbn [items maxsize].
        rewrite Hempty. simpl. by destruct (maxsize (driver_pool w)).
      * cbn [items]. by rewrite Hempty.
      * intros t Ht. apply Queue_get_timeout_cons; [done|].
        cbn [items]. by rewrite Hempty.
Qed.

(** ** Tasks and [spider_closed] on one pool *)

Lemma process_request_run_task self request w :
  process_request self request w = run_task self 5 (AtGet request) w.
Proof.
  unfold process_request, finally_put. simpl.
  destruct (is_SeleniumRequest request); simpl; [|done].
  unfold acquire.
  destruct (Queue_get (driver_pool w) (Some (queue_timeout self)))
    as [driver q|e|] eqn:Eg; simpl.
  - destruct (try_body driver request (set_pool q w, meta request))
      as [[response|e] [w2 m]]; simpl.
    + by destruct (Queue_put (driver_pool w2) driver).
    + destruct (bind _ _ w2) as [[new|e'] w3]; simpl.
      * destruct (Queue_put (driver_pool w3) new) as [q'|]; simpl; [|done].
        by destruct (Queue_put q' driver).
      * by destruct (Queue_put (driver_pool w3) driver).
  - done.
  - done.
Qed.

Lemma run_closer_from_test fuel w dr h' called failure :
  3 * length (items (driver_pool w)) + 1 ≤ fuel →
  quit_each (items (driver_pool w)) (trace w) = (h', called, failure) →
  run_closer fuel AtEmptyTest w dr
  = Some ((spider_closed w).2, dr ++ called).
Proof.
  unfold spider_closed. intros Hf Hq.
  rewrite (spider_closed_loop_spec _ w h' called failure) by done.
  destruct w as [[mx its] h n].
  cbn [driver_pool items maxsize trace next_id snd] in *.
  revert fuel h dr h' called failure Hf Hq.
  induction its as [|d rest IH]; intros fuel h dr h' called failure Hf Hq.
  - simpl in Hq. injection Hq as <- <- <-.
    destruct fuel; [simpl in Hf; lia|]. simpl. by rewrite app_nil_r.
  - destruct fuel as [|[|[|fuel]]]; try (simpl in Hf; lia).
    simpl in Hq. simpl. rewrite quit_eq. unfold log, set_pool. simpl.
    destruct (env h (EvQuit d)) as [v|e].
    + destruct (quit_each rest (h ++ [(EvQuit d, Ok v)]))
        as [[h1 called1] failure1] eqn:E1.
      injection Hq as <- <- <-.
      rewrite (IH fuel _ (dr ++ [d]) h1 called1 failure1);
        [|simpl in Hf; lia|done].
      simpl. by rewrite <- app_assoc.
    + by injection Hq as <- <- <-.
Qed.

Lemma spider_closed_run_closer w dr :
  run_closer (3 * length (items (driver_pool w)) + 2) Off w dr
  = Some ((spider_closed w).2,
          dr ++ (quit_each (items (driver_pool w)) (trace w)).1.2).
Proof.
  replace (3 * length (items (driver_pool w)) + 2)
    with (S (3 * length (items (driver_pool w)) + 1)) by lia.
  destruct (quit_each (items (driver_pool w)) (trace w))
    as [[h' called] failure] eqn:Eq.
  simpl. by eapply run_closer_from_test.
Qed.

Lemma run_reachable self w ls s :
  __init__ self blank = (Returned None, w) →
  run self ls (mkSystem w [] Off []) = Some s →
  reachable self s.
Proof.
  intros Hi. pose proof (reach_init self w Hi) as Hr.
  revert Hr. generalize (mkSystem w [] Off []). revert s.
  induction ls as [|l ls IH]; intros s s0 Hr; simpl.
  - by intros [= <-].
  - destruct (sys_step self l s0) as [s1|] eqn:E; simpl; [|done].
    apply IH. by eapply reach_step.
Qed.

Lemma acquire_cases self w r w1 :
  acquire self w = (r, w1) →
  (∃ out, r = inl out ∧ w1 = w) ∨
  (∃ d rest, r = inr d ∧ items (driver_pool w) = d :: rest
             ∧ w1 = set_pool (mkQueue (maxsize (driver_pool w)) rest) w).
Proof.
  unfold acquire, Queue_get.
  destruct (queue_timeout self <? 0)%Z; simpl.
  - intros [= <- <-]. left. by eexists.
  - destruct (items (driver_pool w)) as [|d rest]; simpl.
    + intros [= <- <-]. left. by eexists.
    + intros [= <- <-]. right. by exists d, rest.
Qed.

Lemma fresh_ids_same w w' :
  launched (trace w') = launched (trace w) → next_id w' = next_id w →
  fresh_ids w → fresh_ids w'.
Proof. unfold fresh_ids. by intros -> ->. Qed.

Lemma task_step_accounting self p w p' w' :
  task_step self p w = Some (p', w') →
  ∃ new,
    held p' ++ items (driver_pool w') ≡ₚ held p ++ items (driver_pool w) ++ new ∧
    launched (trace w') = launched (trace w) ++ new ∧
    (fresh_ids w → fresh_ids w').
Proof.
  destruct p as [request|d request|d request e|d request e new|d request out|];
    simpl; [| | | | |done].
  - destruct (is_SeleniumRequest request); simpl.
    + destruct (acquire self w) as [r w1] eqn:Ea.
      apply acquire_cases in Ea as [(out & -> & ->)|(d & rest & -> & Hq & ->)].
      * destruct out; intros [= <- <-]; exists []; by rewrite !app_nil_r.
      * intros [= <- <-]. exists []. rewrite Hq, !app_nil_r. simpl. done.
    + intros [= <- <-]. exists []. by rewrite !app_nil_r.
  - destruct (try_body d request (w, meta request)) as [r [w2 m]] eqn:Et.
    pose proof (try_body_preserves _ _ _ _ _ Et) as Hd.
    pose proof (drives_launched _ _ _ Hd) as Hl.
    destruct Hd as (Hp & Hn & _ & _). simpl in *.
    destruct r; intros [= <- <-]; exists []; rewrite !app_nil_r, Hp, Hl;
      (split_and!; [done|done|by apply fresh_ids_same]).
  - destruct (bind _ _ w) as [r w3] eqn:Eh.
    apply quit_create_driver in Eh as (rp & _ & Hc & _).
    pose proof (created_pool _ _ _ Hc) as Hp.
    pose proof (created_launched _ _ _ Hc) as Hl.
    rewrite launched_log_quit in Hl. simpl in Hp.
    assert (fresh_ids w → fresh_ids w3) as Hf.
    { intros Hw. eapply created_fresh; [done|].
      eapply fresh_ids_same; [apply launched_log_quit|done|done]. }
    destruct r as [new|e']; intros [= <- <-].
    + exists [new]. rewrite Hp, Hl. simpl. split_and!; [|done|done].
      solve_Permutation.
    + exists []. rewrite Hp, Hl, !app_nil_r. by simpl.
  - destruct (Queue_put (driver_pool w) new) as [q|] eqn:Ep; [|done].
    apply Queue_put_Some in Ep as [_ Hq].
    intros [= <- <-]. exists []. rewrite !app_nil_r. simpl. rewrite Hq.
    split_and!; [|done|done]. solve_Permutation.
  - destruct (Queue_put (driver_pool w) d) as [q|] eqn:Ep; [|done].
    apply Queue_put_Some in Ep as [_ Hq].
    intros [= <- <-]. exists []. rewrite !app_nil_r. simpl. rewrite Hq.
    split_and!; [|done|done]. solve_Permutation.
Qed.

Lemma checked_out_insert (ts : list pc) i p p' :
  ts !! i = Some p →
  ∃ A B, concat (map held ts) = A ++ held p ++ B
         ∧ concat (map held (<[i := p']> ts)) = A ++ held p' ++ B.
Proof.
  intros Hi.
  exists (concat (map held (take i ts))), (concat (map held (drop (S i) ts))).
  rewrite insert_take_drop by (by eapply lookup_lt_Some).
  rewrite <- (take_drop_middle ts i p Hi) at 1.
  by rewrite !map_app, !concat_app.
Qed.

Lemma closer_step_accounting c w dr c' w' dr' :
  closer_step c w dr = Some (c', w', dr') →
  closer_held c' ++ dr' ++ items (driver_pool w')
    ≡ₚ closer_held c ++ dr ++ items (driver_pool w) ∧
  launched (trace w') = launched (trace w) ∧ next_id w' = next_id w.
Proof.
  destruct c as [| | |d]; simpl.
  - by intros [= <- <- <-].
  - destruct (Queue_empty (driver_pool w)); by intros [= <- <- <-].
  - unfold Queue_get. destruct (items (driver_pool w)) as [|d rest] eqn:Hq; [done|].
    intros [= <- <- <-]. simpl. split_and!; [|done|done]. solve_Permutation.
  - rewrite quit_eq.
    destruct (env (trace w) (EvQuit d)); intros [= <- <- <-];
      rewrite launched_log_quit; simpl;
      (split_and!; [|done|done]); solve_Permutation.
Qed.

Lemma reachable_invariant self s : reachable self s → invariant self s.
Proof.
  induction 1 as [w Hi|s l s' Hr IH Hs].
  - unfold __init__ in Hi.
    apply fill_pool_spec in Hi
      as (_ & _ & _ & _ & new & H5 & H6 & H7 & _); [|simpl; lia].
    destruct (H7 eq_refl) as [-> Hn]. simpl in *.
    unfold invariant, accounted, fresh_ids, checked_out, idle. simpl.
    rewrite H5, H6. split_and!.
    + done.
    + apply NoDup_seq.
    + intros d Hd%elem_of_seq. lia.
    + exists []. by rewrite app_nil_r.
  - destruct IH as (Hacc & Hfresh & extra & Hex).
    destruct l as [request|i|]; simpl in Hs.
    + injection Hs as <-.
      unfold invariant, accounted, checked_out, idle in *. simpl.
      rewrite map_app, concat_app. simpl. rewrite app_nil_r.
      split_and!; [done|done|by exists extra].
    + destruct (tasks s !! i) as [p|] eqn:Hp; simpl in Hs; [|done].
      destruct (task_step self p (sys_world s)) as [[p' w']|] eqn:Et;
        simpl in Hs; [|done].
      injection Hs as <-.
      apply task_step_accounting in Et as (new & Hperm & Hl & Hf).
      destruct (checked_out_insert _ _ _ p' Hp) as (A & B & HA & HB).
      unfold invariant, accounted, checked_out, idle in *. simpl.
      rewrite HB, Hl. rewrite HA in Hacc. split_and!.
      * rewrite <- Hacc.
        trans ((held p' ++ items (driver_pool w'))
               ++ A ++ B ++ closer_held (closing s) ++ drained s);
          [solve_Permutation|].
        rewrite Hperm. solve_Permutation.
      * by apply Hf.
      * exists (extra ++ new). by rewrite Hex, app_assoc.
    + destruct (closer_step (closing s) (sys_world s) (drained s))
        as [[[c' w'] dr']|] eqn:Ec; simpl in Hs; [|done].
      injection Hs as <-.
      apply closer_step_accounting in Ec as (Hperm & Hl & Hn).
      unfold invariant, accounted, checked_out, idle in *. simpl.
      rewrite Hl. split_and!.
      * by rewrite Hperm.
      * by apply (fresh_ids_same (sys_world s)).
      * by exists extra.
Qed.

(** The queue never holds more than its bound. *)
Lemma Queue_put_bounded q x q' :
  Queue_put q x = Some q' →
  maxsize q' = maxsize q ∧
  (maxsize q ≤ 0 ∨ Z.of_nat (length (items q')) ≤ maxsize q)%Z.
Proof.
  unfold Queue_put, Queue_full.
  destruct (0 <? maxsize q)%Z eqn:E1; simpl.
  - destruct (maxsize q <=? Z.of_nat (length (items q)))%Z eqn:E2; [done|].
    intros [= <-]. simpl. split; [done|]. right.
    apply Z.leb_gt in E2. rewrite length_app. simpl. lia.
  - intros [= <-]. simpl. split; [done|]. left. by apply Z.ltb_ge.
Qed.

Lemma task_step_bounded self p w p' w' :
  task_step self p w = Some (p', w') →
  (maxsize (driver_pool w) ≤ 0
   ∨ Z.of_nat (length (items (driver_pool w))) ≤ maxsize (driver_pool w))%Z →
  maxsize (driver_pool w') = maxsize (driver_pool w) ∧
  (maxsize (driver_pool w) ≤ 0
   ∨ Z.of_nat (length (items (driver_pool w'))) ≤ maxsize (driver_pool w))%Z.
Proof.
  destruct p as [request|d request|d request e|d request e new|d request out|];
    simpl; [| | | | |done].
  - destruct (is_SeleniumRequest request); simpl; [|by intros [= <- <-]].
    destruct (acquire self w) as [r w1] eqn:Ea.
    apply acquire_cases in Ea as [(out & -> & ->)|(d & rest & -> & Hq & ->)].
    + destruct out; by intros [= <- <-].
    + intros [= <- <-]. simpl. rewrite Hq. simpl. intros Hb. split; [done|lia].
  - destruct (try_body d request (w, meta request)) as [r [w2 m]] eqn:Et.
    apply try_body_preserves in Et as (Hp & _). simpl in Hp.
    destruct r; intros [= <- <-]; by rewrite Hp.
  - destruct (bind _ _ w) as [r w3] eqn:Eh.
    apply quit_create_driver in Eh as (rp & _ & Hc & _).
    apply created_pool in Hc. simpl in Hc.
    destruct r; intros [= <- <-]; by rewrite Hc.
  - destruct (Queue_put (driver_pool w) new) as [q|] eqn:Ep; [|done].
    apply Queue_put_bounded in Ep as [Hm Hb]. by intros [= <- <-] _.
  - destruct (Queue_put (driver_pool w) d) as [q|] eqn:Ep; [|done].
    apply Queue_put_bounded in Ep as [Hm Hb]. by intros [= <- <-] _.
Qed.

Lemma reachable_queue_bounded self s :
  reachable self s →
  maxsize (driver_pool (sys_world s)) = pool_size self ∧
  (pool_size self ≤ 0 ∨ Z.of_nat (length (idle s)) ≤ pool_size self)%Z.
Proof.
  induction 1 as [w Hi|s l s' Hr [Hm Hb] Hs].
  - unfold __init__ in Hi.
    apply fill_pool_spec in Hi
      as (_ & _ & H3 & _ & new & H5 & _ & H7 & _); [|simpl; lia].
    destruct (H7 eq_refl) as [-> _]. unfold idle. simpl in *.
    rewrite H5, length_seq. split; [done|lia].
  - unfold idle in *. destruct l as [request|i|]; simpl in Hs.
    + by injection Hs as <-.
    + destruct (tasks s !! i) as [p|]; simpl in Hs; [|done].
      destruct (task_step self p (sys_world s)) as [[p' w']|] eqn:Et;
        simpl in Hs; [|done].
      injection Hs as <-. simpl.
      apply task_step_bounded in Et as [Hm' Hb']; rewrite ?Hm; [|done].
      rewrite Hm in Hm'. by rewrite Hm in Hb'.
    + destruct (closing s) as [| | |d]; simpl in Hs.
      * by injection Hs as <-.
      * destruct (Queue_empty (driver_pool (sys_world s)));
          by injection Hs as <-.
      * unfold Queue_get in Hs.
        destruct (items (driver_pool (sys_world s))) as [|d rest];
          simpl in Hs; [done|].
        injection Hs as <-. simpl in *. split; [done|lia].
      * rewrite quit_eq in Hs.
        destruct (env (trace (sys_world s)) (EvQuit d));
          by injection Hs as <-.
Qed.

Lemma launched_initial_only self w extra :
  fresh_ids w →
  launched (trace w) = seq 0 (Z.to_nat (pool_size self)) ++ extra →
  next_id w = Z.to_nat (pool_size self) →
  extra = [].
Proof.
  intros [Hnd Hlt] Hl Hn. destruct extra as [|x extra]; [done|].
  rewrite Hl in Hnd, Hlt. apply NoDup_app in Hnd as (_ & Hdisj & _).
  exfalso. apply (Hdisj x).
  - apply elem_of_seq. specialize (Hlt x). rewrite elem_of_app in Hlt.
    assert (x < next_id w) by (apply Hlt; right; by left). lia.
  - by left.
Qed.

(** C2 (amended): in every state a crawl can reach, under any
    interleaving of arrivals, task steps and [spider_closed] steps, no driver
    is held twice, by two tasks or by a task and the queue, and the drivers
    held by tasks, idle in the queue, or taken out by [spider_closed] are
    exactly the drivers started so far.  As long as no driver constructor
    has been called since [__init__], at most [pool_size] drivers are
    checked out, and checked-out plus idle is [pool_size] less what
    [spider_closed] has taken: exactly [pool_size] while it has taken
    nothing. *)
Theorem reachable_pool_accounting self s :
  reachable self s →
  NoDup (checked_out s ++ closer_held (closing s) ++ drained s ++ idle s) ∧
  checked_out s ++ closer_held (closing s) ++ drained s ++ idle s
    ≡ₚ launched (trace (sys_world s)) ∧
  NoDup (launched (trace (sys_world s))) ∧
  length (checked_out s) + length (idle s)
    + length (closer_held (closing s) ++ drained s)
    = length (launched (trace (sys_world s))) ∧
  (next_id (sys_world s) = Z.to_nat (pool_size self) →
   length (checked_out s) + length (idle s)
     + length (closer_held (closing s) ++ drained s)
     = Z.to_nat (pool_size self) ∧
   length (checked_out s) ≤ Z.to_nat (pool_size self) ∧
   (closer_held (closing s) ++ drained s = [] →
    length (checked_out s) + length (idle s) = Z.to_nat (pool_size self))).
Proof.
  intros (Hacc & Hfresh & extra & Hex)%reachable_invariant.
  unfold accounted in Hacc.
  assert (length (checked_out s) + length (idle s)
          + length (closer_held (closing s) ++ drained s)
          = length (launched (trace (sys_world s)))) as Hlen.
  { rewrite <- Hacc, !length_app. lia. }
  split_and!.
  - rewrite Hacc. apply Hfresh.
  - done.
  - apply Hfresh.
  - done.
  - intros Hn.
    rewrite (launched_initial_only self _ extra Hfresh Hex Hn), app_nil_r in Hex.
    rewrite Hex, length_seq in Hlen. split_and!; [done|lia|].
    intros Hnil. rewrite Hnil in Hlen. simpl in Hlen. lia.
Qed.

Lemma finally_has_room self s i d request out :
  reachable self s →
  next_id (sys_world s) = Z.to_nat (pool_size self) →
  tasks s !! i = Some (AtFinally d request out) →
  Queue_full (driver_pool (sys_world s)) = false.
Proof.
  intros Hr Hn Hi.
  pose proof (reachable_queue_bounded self s Hr) as [Hm _].
  apply reachable_invariant in Hr as (Hacc & Hfresh & extra & Hex).
  rewrite (launched_initial_only self _ extra Hfresh Hex Hn), app_nil_r in Hex.
  unfold accounted in Hacc. rewrite Hex in Hacc.
  apply Permutation_length in Hacc. rewrite !length_app, length_seq in Hacc.
  destruct (checked_out_insert _ _ _ (AtFinally d request out) Hi)
    as (A & B & HA & _).
  unfold checked_out in Hacc. rewrite HA, !length_app in Hacc. simpl in Hacc.
  unfold idle in *. apply Queue_full_room. rewrite Hm. lia.
Qed.

Lemma task_step_failing self p w p' w' :
  task_step self p w = Some (p', w') → failing p → failing p'.
Proof.
  destruct p as [request|d request|d request e|d request e new|d request out|];
    simpl; try done.
  - intros H _. destruct (bind _ _ w) as [[new|e'] w3];
      injection H as <- <-; simpl; by eauto.
  - destruct (Queue_put (driver_pool w) new); [|done].
    intros [= <- <-] _. simpl. by eexists.
  - destruct (Queue_put (driver_pool w) d); [|done]. by intros [= <- <-].
Qed.

Lemma run_failing self ls s s' i p :
  run self ls s = Some s' →
  tasks s !! i = Some p → failing p →
  ∃ p', tasks s' !! i = Some p' ∧ failing p'.
Proof.
  revert s p. induction ls as [|l ls IH]; intros s p; simpl.
  - intros [= <-] Hi Hp. by exists p.
  - destruct (sys_step self l s) as [s1|] eqn:Es; simpl; [|done].
    intros Hrun Hi Hp.
    assert (∃ p1, tasks s1 !! i = Some p1 ∧ failing p1) as (p1 & Hi1 & Hp1).
    { destruct l as [request|j|]; simpl in Es.
      - injection Es as <-. simpl. exists p. split; [|done].
        by apply lookup_app_l_Some.
      - destruct (tasks s !! j) as [pj|] eqn:Hj; simpl in Es; [|done].
        destruct (task_step self pj (sys_world s)) as [[pj' w']|] eqn:Et;
          simpl in Es; [|done].
        injection Es as <-. simpl.
        destruct (decide (j = i)) as [->|Hne].
        + rewrite Hi in Hj. injection Hj as <-. exists pj'. split.
          * apply list_lookup_insert_eq. by eapply lookup_lt_Some.
          * by eapply task_step_failing.
        + exists p. by rewrite list_lookup_insert_ne.
      - destruct (closer_step _ _ _) as [[[c' w'] dr']|]; simpl in Es; [|done].
        injection Es as <-. by exists p. }
    by eapply IH.
Qed.

(** C8 (what the code does): under any interleaving, when every step of
    the sequence navigate, each cookie in order, wait if set, screenshot if
    asked, script if set, read markup, read current URL is answered, the
    task makes exactly these calls on its driver in this order and comes to
    its [finally] with a response whose URL is the answer to the last read,
    whose body is the bytes of the markup read after all earlier steps, and
    whose encoding is utf-8; the screenshot, when taken, and the driver are
    in the request's [meta].  At the [finally] the task puts the driver at
    the end of the queue and returns that response when the queue has
    room; when the queue is full it waits and the response is not
    returned.  There is room as long as no driver constructor has been
    called since [__init__]; after a failed fetch, which leaves its
    replacement and the failed driver in the queue, there need not be.  If
    the wait raises, the task never returns a response. *)
Theorem process_request_success self s i driver request :
  tasks s !! i = Some (InTry driver request) →
  (∀ h' vs,
     answers driver (spec_steps request) (trace (sys_world s)) = Some (h', vs) →
     ∃ s1 response request' new pre page_source current_url png,
       sys_step self (Task i) s = Some s1 ∧
       tasks s1 !! i
         = Some (AtFinally driver request' (Returned (Some response))) ∧
       idle s1 = idle s ∧
       trace (sys_world s1) = trace (sys_world s) ++ new ∧
       map fst new = map (EvCommand driver) (spec_steps request) ∧
       map snd new = map Ok vs ∧
       vs = pre ++ [page_source; current_url] ∧
       resp_url response = current_url ∧
       resp_body response = String.list_byte_of_string page_source ∧
       String.string_of_list_byte (resp_body response) = page_source ∧
       resp_encoding response = "utf-8" ∧
       (screenshot request = true →
        (GetScreenshotAsPng, png) ∈ zip (spec_steps request) vs) ∧
       meta request'
         = <["driver" := MetaDriver driver]>
             (if screenshot request
              then <["screenshot" := MetaScreenshot png]> (meta request)
              else meta request) ∧
       (∀ s2,
          tasks s2 !! i
            = Some (AtFinally driver request' (Returned (Some response))) →
          if Queue_full (driver_pool (sys_world s2))
          then sys_step self (Task i) s2 = None
          else ∃ s3,
                 sys_step self (Task i) s2 = Some s3 ∧
                 tasks s3 !! i
                   = Some (Finished request' (Returned (Some response))) ∧
                 idle s3 = idle s2 ++ [driver] ∧
                 trace (sys_world s3) = trace (sys_world s2)) ∧
       (∀ s2,
          reachable self s2 →
          tasks s2 !! i
            = Some (AtFinally driver request' (Returned (Some response))) →
          next_id (sys_world s2) = Z.to_nat (pool_size self) →
          Queue_full (driver_pool (sys_world s2)) = false)) ∧
  (∀ condition h1 vs1 e,
     wait_until request = Some condition →
     answers driver
       ([Get (url request)]
        ++ map (fun '(name, v) => AddCookie name v) (cookies request))
       (trace (sys_world s)) = Some (h1, vs1) →
     env h1 (EvCommand driver (WaitUntil condition (wait_time request)))
       = Fail e →
     ∃ s1 request',
       sys_step self (Task i) s = Some s1 ∧
       tasks s1 !! i = Some (InExcept driver request' e) ∧
       ∀ ls s2, run self ls s1 = Some s2 →
                ∀ request'' r,
                  tasks s2 !! i ≠ Some (Finished request'' (Returned r))).
Proof.
  intros Hi. destruct s as [[q h n] ts c dr].
  cbn [sys_world tasks trace] in *. split.
  - intros h' vs Hans.
    destruct (answers_extends _ _ _ _ _ Hans) as (new & Hh & Hf & Hs).
    destruct (try_body_answers driver request q h n (meta request) h' vs Hans)
      as (pre & src & cur & png & Hvs & Hpng & Et).
    eexists _, _, _, new, pre, src, cur, png.
    split; [simpl; rewrite Hi; simpl; rewrite Et; reflexivity|].
    cbn [sys_world tasks trace idle driver_pool items].
    split; [apply list_lookup_insert_eq; by eapply lookup_lt_Some|].
    split_and!; try done.
    + apply String.string_of_list_byte_of_string.
    + intros s2 H2. simpl. rewrite H2. simpl. unfold Queue_put, idle.
      destruct (Queue_full (driver_pool (sys_world s2))); simpl; [done|].
      eexists. split; [done|]. simpl. split_and!; [|done|done].
      apply list_lookup_insert_eq. by eapply lookup_lt_Some.
    + intros s2 Hr H2 Hn. by eapply finally_has_room.
  - intros condition h1 vs1 e Hw Hans E.
    pose proof (try_body_wait_raises driver request q h n (meta request)
                  condition h1 vs1 e Hw Hans E) as Et.
    eexists _, _.
    split; [simpl; rewrite Hi; simpl; rewrite Et; reflexivity|].
    cbn [tasks]. split.
    + apply list_lookup_insert_eq. by eapply lookup_lt_Some.
    + intros ls s2 Hrun request'' r Hfin.
      eapply run_failing in Hrun as (p' & Hp' & Hfail).
      * rewrite Hfin in Hp'. injection Hp' as <-. by destruct Hfail.
      * cbn [tasks]. apply list_lookup_insert_eq. by eapply lookup_lt_Some.
      * done.
Qed.

(** C10: in every state a crawl can reach, a step of [spider_closed]
    leaves every task and what it holds as they were; a driver it takes is
    the one at the head of the queue, idle at that moment; and the only
    driver it quits is the one it took in its own [get], which no task
    holds.  A task that comes to its [finally] with driver [d] when the
    queue has been drained puts [d] back (shutdown has not quit it), and the
    next [get] of a flagged request returns [d]. *)
Theorem spider_closed_spares_checked_out self s :
  reachable self s →
  (∀ s', sys_step self Closer s = Some s' →
     tasks s' = tasks s ∧
     (∀ d, closing s' = AtQuit d →
           ∃ rest, closing s = AtCloserGet ∧ idle s = d :: rest
                   ∧ idle s' = rest) ∧
     ∃ qs, quits (trace (sys_world s')) = quits (trace (sys_world s)) ++ qs ∧
           ∀ d, d ∈ qs → closing s = AtQuit d ∧ d ∉ checked_out s) ∧
  (∀ i d request out,
     tasks s !! i = Some (AtFinally d request out) →
     idle s = [] →
     (d ∉ drained s) ∧
     ∃ s1, sys_step self (Task i) s = Some s1 ∧
           idle s1 = [d] ∧
           trace (sys_world s1) = trace (sys_world s) ∧
           ∀ j request',
             tasks s1 !! j = Some (AtGet request') →
             is_SeleniumRequest request' = true →
             (0 ≤ queue_timeout self)%Z →
             ∃ s2, sys_step self (Task j) s1 = Some s2 ∧
                   tasks s2 !! j = Some (InTry d request') ∧
                   idle s2 = []).
Proof.
  intros (Hacc & Hfresh & _)%reachable_invariant.
  assert (NoDup (checked_out s ++ closer_held (closing s)
                 ++ drained s ++ idle s)) as Hnd
    by (unfold accounted in Hacc; rewrite Hacc; apply Hfresh).
  assert (∀ t : history, ∃ qs : list driver_id,
            quits t = quits t ++ qs ∧
            ∀ d, d ∈ qs → closing s = AtQuit d ∧ d ∉ checked_out s) as Hnone.
  { intros t. exists []. rewrite app_nil_r. split; [done|].
    by intros d ?%not_elem_of_nil. }
  split.
  - intros s'. simpl.
    destruct (closer_step (closing s) (sys_world s) (drained s))
      as [[[c' w'] dr']|] eqn:Ec; simpl; [|done].
    intros [= <-]. simpl. split; [done|].
    destruct (closing s) as [| | |d] eqn:Hc; simpl in Ec.
    + injection Ec as <- <- <-. split; [done|]. apply Hnone.
    + destruct (Queue_empty (driver_pool (sys_world s)));
        injection Ec as <- <- <-; (split; [done|]); apply Hnone.
    + unfold Queue_get in Ec. unfold idle.
      destruct (items (driver_pool (sys_world s))) as [|d rest]; [done|].
      injection Ec as <- <- <-. simpl. split; [|apply Hnone].
      intros d' [= <-]. by exists rest.
    + assert (c' ≠ AtQuit d ∧ (∀ d', c' ≠ AtQuit d')
              ∧ quits (trace w') = quits (trace (sys_world s)) ++ [d])
        as (_ & Hc' & Hq').
      { rewrite quit_eq in Ec.
        destruct (env (trace (sys_world s)) (EvQuit d));
          injection Ec as <- <- <-; by rewrite quits_log_quit. }
      split; [by intros d' ?%Hc'|]. exists [d]. split; [done|].
      intros d' ->%list_elem_of_singleton. split; [done|].
      simpl in Hnd. apply NoDup_app in Hnd as (_ & Hdisj & _).
      intros Hin. apply (Hdisj d Hin). by left.
  - intros i d request out Hi Hidle. split.
    + destruct (checked_out_insert _ _ _ (AtFinally d request out) Hi)
        as (A & B & HA & _).
      unfold checked_out in Hnd. rewrite HA in Hnd. simpl in Hnd.
      intros Hin.
      apply NoDup_app in Hnd as (_ & Hdisj & _). apply (Hdisj d).
      * rewrite elem_of_app. right. by left.
      * rewrite !elem_of_app. auto.
    + unfold idle in *. simpl. rewrite Hi. simpl.
      rewrite Queue_put_not_full
        by (unfold Queue_full; rewrite Hidle; simpl;
            by destruct (maxsize (driver_pool (sys_world s)))).
      simpl. eexists. split; [done|]. simpl. rewrite Hidle. simpl.
      split_and!; [done|done|].
      intros j request' Hj Hr Ht. rewrite Hj. simpl. rewrite Hr. simpl.
      rewrite (acquire_head self _ d []) by done. simpl.
      eexists. split; [done|]. simpl. split; [|done].
      apply list_lookup_insert_eq. by eapply lookup_lt_Some.
Qed.

(** ** The [try] body, step by step up to the first failure *)

Lemma attempt_app d cs1 cs2 h :
  attempt d (cs1 ++ cs2) h =
  match attempt d cs1 h with
  | (h1, None) => attempt d cs2 h1
  | (h1, Some failure) => (h1, Some failure)
  end.
Proof.
  revert h. induction cs1 as [|c cs1 IH]; intros h; simpl; [done|].
  destruct (env h (EvCommand d c)); [apply IH|done].
Qed.

Lemma attempt_failure d cs h h1 c e :
  attempt d cs h = (h1, Some (c, e)) →
  ∃ pre post vs,
    cs = pre ++ c :: post ∧ length vs = length pre ∧
    h1 = h ++ zip (map (EvCommand d) pre) (map Ok vs)
           ++ [(EvCommand d c, Fail e)].
Proof.
  revert h. induction cs as [|c0 cs IH]; intros h; simpl; [done|].
  destruct (env h (EvCommand d c0)) as [v|e0] eqn:E.
  - intros (pre & post & vs & -> & Hlen & ->)%IH.
    exists (c0 :: pre), post, (v :: vs). simpl. split_and!; [done|by f_equal|].
    by rewrite <- app_assoc.
  - intros [= <- <- <-]. by exists [], cs, [].
Qed.

Lemma attempt_success d cs h h1 :
  attempt d cs h = (h1, None) →
  ∃ vs, answers d cs h = Some (h1, vs).
Proof.
  revert h. induction cs as [|c cs IH]; intros h; simpl.
  - intros [= <-]. by exists [].
  - destruct (env h (EvCommand d c)) as [v|e0] eqn:E; [|done].
    intros [vs Hvs]%IH. rewrite Hvs. by exists (v :: vs).
Qed.

Lemma for_each_cookies_attempt d cks q h n m :
  for_each cks (fun '(cookie_name, cookie_value) =>
                  let* _ := call d (AddCookie cookie_name cookie_value) in
                  ret ()) (mkWorld q h n, m)
  = (match (attempt d (map (fun '(name, v) => AddCookie name v) cks) h).2 with
     | None => Ret ()
     | Some (_, e) => Raise e
     end,
     (mkWorld q (attempt d (map (fun '(name, v) => AddCookie name v) cks) h).1
              n, m)).
Proof.
  revert h. induction cks as [|[name v] cks IH]; intros h; simpl; [done|].
  unfold bind at 1. unfold bind at 1.
  destruct (env h (EvCommand d (AddCookie name v))) as [x|e] eqn:E.
  - rewrite (call_Ok _ _ _ _ _ _ _ E). simpl. apply IH.
  - by rewrite (call_Fail _ _ _ _ _ _ _ E).
Qed.

Lemma attempt_cookie_failure d cks h h1 c e :
  attempt d (map (fun '(name, v) => AddCookie name v) cks) h
    = (h1, Some (c, e)) →
  ∃ name v, c = AddCookie name v.
Proof.
  intros (pre & post & vs & Hcs & _)%attempt_failure.
  assert (c ∈ map (fun '(name, v) => AddCookie name v) cks) as Hin
    by (rewrite Hcs; set_solver).
  apply list_elem_of_fmap in Hin as ([name v] & -> & _). by exists name, v.
Qed.

(** What the [try] body comes to, for every request and every behaviour of
    the browser. *)
Lemma try_body_outcome d request q h n m h' failure :
  attempt d (spec_steps request) h = (h', failure) →
  ∃ r m',
    try_body d request (mkWorld q h n, m) = (r, (mkWorld q h' n, m')) ∧
    (∀ k, k ≠ "screenshot" → k ≠ "driver" → m' !! k = m !! k) ∧
    (screenshot request = false → m' !! "screenshot" = m !! "screenshot") ∧
    match failure with
    | None =>
        (∃ response, r = Ret response) ∧ m' !! "driver" = Some (MetaDriver d)
    | Some (c, e) =>
        r = Raise e ∧
        m' !! "driver" = match c with
                         | CurrentUrl => Some (MetaDriver d)
                         | _ => m !! "driver"
                         end
    end.
Proof.
  unfold try_body, spec_steps.
  (* navigate *)
  rewrite attempt_app. unfold bind at 1. simpl attempt at 1.
  destruct (env h (EvCommand d (Get (url request)))) as [v0|e0] eqn:E0.
  2:{ rewrite (call_Fail _ _ _ _ _ _ _ E0). simpl. intros [= <- <-].
      by eexists _, m. }
  rewrite (call_Ok _ _ _ _ _ _ _ E0). simpl.
  set (h0 := h ++ [(EvCommand d (Get (url request)), Ok v0)]).
  (* cookies *)
  rewrite attempt_app. unfold bind at 1. rewrite for_each_cookies_attempt.
  destruct (attempt d (map _ (cookies request)) h0)
    as [h1 [[c1 e1]|]] eqn:E1; simpl.
  { intros [= <- <-]. eexists _, m. split_and!; try done.
    apply attempt_cookie_failure in E1 as (name & v & ->). done. }
  (* wait *)
  rewrite attempt_app. unfold bind at 1.
  assert (∃ h2 f2,
    attempt d match wait_until request with
              | Some condition => [WaitUntil condition (wait_time request)]
              | None => []
              end h1 = (h2, f2)
    ∧ match wait_until request with
      | Some condition =>
          let* _ := call d (WaitUntil condition (wait_time request)) in ret ()
      | None => ret ()
      end (mkWorld q h1 n, m)
      = (match f2 with None => Ret () | Some (_, e) => Raise e end,
         (mkWorld q h2 n, m))
    ∧ match f2 with Some (CurrentUrl, _) => False | _ => True end)
    as (h2 & f2 & -> & -> & Hc2).
  { destruct (wait_until request) as [condition|]; simpl.
    - unfold bind.
      destruct (env h1 (EvCommand d (WaitUntil condition (wait_time request))))
        as [v|e] eqn:E.
      + rewrite (call_Ok _ _ _ _ _ _ _ E). by eexists _, _.
      + rewrite (call_Fail _ _ _ _ _ _ _ E). by eexists _, _.
    - by eexists _, _. }
  destruct f2 as [[c2 e2]|]; simpl.
  { intros [= <- <-]. eexists _, m. split_and!; try done. by destruct c2. }
  clear Hc2.
  (* screenshot *)
  rewrite attempt_app. unfold bind at 1.
  assert (∃ h3 f3 m3,
    attempt d (if screenshot request then [GetScreenshotAsPng] else []) h2
      = (h3, f3)
    ∧ when (screenshot request)
        (let* png := call d GetScreenshotAsPng in
         meta_setitem "screenshot" (MetaScreenshot png)) (mkWorld q h2 n, m)
      = (match f3 with None => Ret () | Some (_, e) => Raise e end,
         (mkWorld q h3 n, m3))
    ∧ match f3 with Some (CurrentUrl, _) => False | _ => True end
    ∧ (∀ k, k ≠ "screenshot" → m3 !! k = m !! k)
    ∧ (screenshot request = false → m3 = m))
    as (h3 & f3 & m3 & -> & -> & Hc3 & Hm3 & Hs3).
  { destruct (screenshot request); simpl.
    - unfold bind.
      destruct (env h2 (EvCommand d GetScreenshotAsPng)) as [v|e] eqn:E.
      + rewrite (call_Ok _ _ _ _ _ _ _ E). simpl. eexists _, _, _.
        split_and!; try done. intros k Hk. by apply lookup_insert_ne.
      + rewrite (call_Fail _ _ _ _ _ _ _ E). by eexists _, _, _.
    - by eexists _, _, _. }
  destruct f3 as [[c3 e3]|]; simpl.
  { intros [= <- <-]. eexists _, m3. split_and!; try done.
    - intros k H1 H2. by apply Hm3.
    - by intros ->%Hs3.
    - rewrite Hm3 by done. by destruct c3. }
  clear Hc3.
  (* script *)
  rewrite attempt_app. unfold bind at 1.
  assert (∃ h4 f4,
    attempt d (if truthy (script request)
               then [ExecuteScript (default EmptyString (script request))]
               else []) h3 = (h4, f4)
    ∧ when (truthy (script request))
        (let* _ := call d (ExecuteScript
                             (default EmptyString (script request))) in
         ret ()) (mkWorld q h3 n, m3)
      = (match f4 with None => Ret () | Some (_, e) => Raise e end,
         (mkWorld q h4 n, m3))
    ∧ match f4 with Some (CurrentUrl, _) => False | _ => True end)
    as (h4 & f4 & -> & -> & Hc4).
  { destruct (truthy (script request)); simpl.
    - unfold bind.
      destruct (env h3 (EvCommand d (ExecuteScript
                                       (default EmptyString (script request)))))
        as [v|e] eqn:E.
      + rewrite (call_Ok _ _ _ _ _ _ _ E). by eexists _, _.
      + rewrite (call_Fail _ _ _ _ _ _ _ E). by eexists _, _.
    - by eexists _, _. }
  destruct f4 as [[c4 e4]|]; simpl.
  { intros [= <- <-]. eexists _, m3. split_and!; try done.
    - intros k H1 H2. by apply Hm3.
    - by intros ->%Hs3.
    - rewrite Hm3 by done. by destruct c4. }
  clear Hc4.
  (* read the markup, expose the driver, read the address *)
  unfold bind at 1.
  destruct (env h4 (EvCommand d PageSource)) as [v5|e5] eqn:E5.
  2:{ rewrite (call_Fail _ _ _ _ _ _ _ E5). intros [= <- <-].
      eexists _, m3. split_and!; try done.
      - intros k H1 H2. by apply Hm3.
      - by intros ->%Hs3.
      - by rewrite Hm3. }
  rewrite (call_Ok _ _ _ _ _ _ _ E5). unfold bind at 1. simpl.
  unfold bind at 1.
  destruct (env (h4 ++ [(EvCommand d PageSource, Ok v5)])
              (EvCommand d CurrentUrl)) as [v6|e6] eqn:E6.
  - rewrite (call_Ok _ _ _ _ _ _ _ E6). intros [= <- <-].
    eexists _, _. split_and!; [done| | | |].
    + intros k H1 H2. rewrite lookup_insert_ne by done. by apply Hm3.
    + intros ->%Hs3. by rewrite lookup_insert_ne.
    + by eexists.
    + by rewrite lookup_insert_eq.
  - rewrite (call_Fail _ _ _ _ _ _ _ E6). intros [= <- <-].
    eexists _, _. split_and!; [done| | | |].
    + intros k H1 H2. rewrite lookup_insert_ne by done. by apply Hm3.
    + intros ->%Hs3. by rewrite lookup_insert_ne.
    + done.
    + by rewrite lookup_insert_eq.
Qed.

(** ** More on [process_request] *)

Lemma finally_put_trace d out w :
  trace (finally_put d out w).2 = trace w ∧ next_id (finally_put d out w).2 = next_id w.
Proof. unfold finally_put. by destruct (Queue_put (driver_pool w) d). Qed.

(** X1: when a step of a browser-flagged request raises, the commands that
    were put to the driver are the steps before it, each answered, and the
    step that raised; [process_request] then calls [quit] on the driver and
    sends it no further command: all that follows in the trace is at most
    one constructor call for the replacement, and none when [quit]
    raised. *)
Theorem process_request_failure_trace self request w driver rest h1 c e :
  is_SeleniumRequest request = true →
  (0 ≤ queue_timeout self)%Z →
  items (driver_pool w) = driver :: rest →
  attempt driver (spec_steps request) (trace w) = (h1, Some (c, e)) →
  ∃ pre post vs tail,
    spec_steps request = pre ++ c :: post ∧
    length vs = length pre ∧
    h1 = trace w ++ zip (map (EvCommand driver) pre) (map Ok vs)
                 ++ [(EvCommand driver c, Fail e)] ∧
    trace (process_request self request w).2
      = h1 ++ (EvQuit driver, env h1 (EvQuit driver)) :: tail ∧
    (tail = [] ∨
     (∃ v, env h1 (EvQuit driver) = Ok v)
     ∧ ∃ l rp, tail = [(EvLaunch (next_id w) l, rp)]).
Proof.
  intros Hr Ht Hq Ha.
  destruct (attempt_failure _ _ _ _ _ _ Ha) as (pre & post & vs & Hs & Hl & Hh).
  exists pre, post, vs.
  pose proof (acquire_head self w driver rest Ht Hq) as Hacq.
  destruct w as [[mx its] h n]. cbn [driver_pool items maxsize trace next_id] in *.
  destruct (try_body_outcome driver request (mkQueue mx rest) h n
              (meta request) h1 _ Ha) as (r & m' & Et & _ & _ & -> & _).
  unfold process_request. rewrite Hr, Hacq. simpl.
  unfold set_pool at 1. simpl. rewrite Et.
  destruct (bind _ _ (mkWorld (mkQueue mx rest) h1 n)) as [r w3] eqn:Eh.
  apply quit_create_driver in Eh as (rp & Hrp & Hc & _ & Hfail).
  cbn [trace] in Hrp. rewrite <- Hrp. clear Hrp.
  assert (∃ tail, trace w3 = h1 ++ (EvQuit driver, rp) :: tail
                  ∧ (tail = [] ∨
                     (∃ v, rp = Ok v)
                     ∧ ∃ l rp', tail = [(EvLaunch n l, rp')]))
    as (tail & Htr & Htail).
  { destruct rp as [v|e0].
    - inversion Hc; subst; simpl.
      + exists []. split; [done|by left].
      + eexists [_]. rewrite <- app_assoc. split; [done|].
        right. split; [by eexists|by eexists _, _].
      + eexists [_]. rewrite <- app_assoc. split; [done|].
        right. split; [by eexists|by eexists _, _].
    - destruct (Hfail e0 eq_refl) as [-> ->]. exists []. simpl.
      split; [done|by left]. }
  exists tail. split_and!; try done.
  destruct r as [new|e'].
  - destruct (Queue_put (driver_pool w3) new) as [q'|]; simpl; [|done].
    destruct (finally_put driver (Raised e) (set_pool q' w3)) as [out w4] eqn:Ef.
    simpl. pose proof (finally_put_trace driver (Raised e) (set_pool q' w3)) as [Hf _].
    rewrite Ef in Hf. simpl in Hf. by rewrite Hf.
  - destruct (finally_put driver (Raised e') w3) as [out w4] eqn:Ef.
    simpl. pose proof (finally_put_trace driver (Raised e') w3) as [Hf _].
    rewrite Ef in Hf. simpl in Hf. by rewrite Hf.
Qed.

(** X2: when a step of a browser-flagged request raises, [quit] is called
    on the driver; [meta['driver']] is left as it was, unless the step that
    raised is the last one, the reading of [current_url]: then
    [meta['driver']] names the driver [quit] has just been called on. *)
Theorem process_request_failure_meta self request w driver rest h1 c e :
  is_SeleniumRequest request = true →
  (0 ≤ queue_timeout self)%Z →
  items (driver_pool w) = driver :: rest →
  attempt driver (spec_steps request) (trace w) = (h1, Some (c, e)) →
  meta (process_request self request w).1.2 !! "driver"
    = match c with
      | CurrentUrl => Some (MetaDriver driver)
      | _ => meta request !! "driver"
      end ∧
  driver ∈ quits (trace (process_request self request w).2).
Proof.
  intros Hr Ht Hq Ha.
  pose proof (acquire_head self w driver rest Ht Hq) as Hacq.
  destruct (process_request self request w) as [[out request'] w'] eqn:Ep.
  simpl. unfold process_request in Ep. rewrite Hr, Hacq in Ep. simpl in Ep.
  destruct w as [[mx its] h n].
  cbn [driver_pool items maxsize trace next_id] in *.
  destruct (try_body_outcome driver request (mkQueue mx rest) h n
              (meta request) h1 _ Ha) as (r & m' & Et & _ & _ & -> & Hm).
  unfold set_pool at 1 in Ep. simpl in Ep. rewrite Et in Ep.
  destruct (bind _ _ (mkWorld (mkQueue mx rest) h1 n)) as [r w3] eqn:Eh.
  apply quit_create_driver in Eh as (rp & _ & Hc & _).
  assert (driver ∈ quits (trace w3)) as Hquit.
  { rewrite (created_quits _ _ _ Hc), quits_log_quit.
    apply elem_of_app. right. by left. }
  destruct r as [new|e'].
  - destruct (Queue_put (driver_pool w3) new) as [q'|];
      [|by injection Ep as <- <- <-].
    pose proof (finally_put_trace driver (Raised e) (set_pool q' w3))
      as [Hf _].
    destruct (finally_put driver (Raised e) (set_pool q' w3)) as [out4 w4].
    injection Ep as <- <- <-. simpl in *. by rewrite Hf.
  - pose proof (finally_put_trace driver (Raised e') w3) as [Hf _].
    destruct (finally_put driver (Raised e') w3) as [out4 w4].
    injection Ep as <- <- <-. simpl in *. by rewrite Hf.
Qed.

(** X3: [process_request] never writes [meta['screenshot']] for a request
    that did not ask for a screenshot, whatever the call comes to. *)
Theorem process_request_screenshot_only_on_request self request w :
  screenshot request = false →
  meta (process_request self request w).1.2 !! "screenshot"
  = meta request !! "screenshot".
Proof.
  intros Hs. unfold process_request.
  destruct (is_SeleniumRequest request); simpl; [|done].
  destruct (acquire self w) as [[out|driver] w1]; simpl; [done|].
  destruct w1 as [q h n].
  destruct (attempt driver (spec_steps request) h) as [h1 failure] eqn:Ha.
  destruct (try_body_outcome driver request q h n (meta request) h1 _ Ha)
    as (r & m' & Et & _ & Hm & _).
  rewrite Et. specialize (Hm Hs).
  destruct r as [response|e].
  - by destruct (finally_put _ _ _) as [out w3].
  - destruct (bind _ _ _) as [[new|e'] w3].
    + destruct (Queue_put (driver_pool w3) new); simpl;
        [by destruct (finally_put _ _ _) as [out w4]|done].
    + by destruct (finally_put _ _ _) as [out w4].
Qed.

(** ** One request after the other *)

Lemma healthy_attempt d cs h : healthy → (attempt d cs h).2 = None.
Proof.
  intros Hh. revert h. induction cs as [|c cs IH]; intros h; simpl; [done|].
  destruct (Hh h d c) as [v ->]. apply IH.
Qed.

Lemma process_request_healthy self request w driver rest :
  healthy →
  is_SeleniumRequest request = true →
  (0 ≤ queue_timeout self)%Z →
  items (driver_pool w) = driver :: rest →
  (maxsize (driver_pool w) ≤ 0
   ∨ Z.of_nat (length (items (driver_pool w))) ≤ maxsize (driver_pool w))%Z →
  ∃ response request' w',
    process_request self request w = (Returned (Some response), request', w') ∧
    driver_pool w' = mkQueue (maxsize (driver_pool w)) (rest ++ [driver]) ∧
    quits (trace w') = quits (trace w) ∧
    launched (trace w') = launched (trace w) ∧
    next_id w' = next_id w.
Proof.
  intros Hh Hr Ht Hq Hb.
  pose proof (acquire_head self w driver rest Ht Hq) as Hacq.
  destruct w as [[mx its] h n].
  cbn [driver_pool items maxsize trace next_id] in *. subst its.
  destruct (attempt driver (spec_steps request) h) as [h1 failure] eqn:Ha.
  pose proof (healthy_attempt driver (spec_steps request) h Hh) as Hnone.
  rewrite Ha in Hnone. simpl in Hnone. subst failure.
  destruct (try_body_outcome driver request (mkQueue mx rest) h n
              (meta request) h1 _ Ha)
    as (r & m' & Et & _ & _ & [response ->] & _).
  pose proof (try_body_preserves _ _ _ _ _ Et) as Hd.
  pose proof (drives_quits _ _ _ Hd) as Hquits.
  pose proof (drives_launched _ _ _ Hd) as Hlaunched. simpl in *.
  unfold process_request. rewrite Hr, Hacq. simpl.
  unfold set_pool at 1. simpl. rewrite Et.
  unfold finally_put. simpl. rewrite Queue_put_not_full
    by (apply Queue_full_room; cbn [maxsize items length] in *; lia).
  simpl. by eexists _, _, _.
Qed.

Lemma rotate_S_cons {A} n (x : A) l :
  rotate (S n) (x :: l) = rotate n (l ++ [x]).
Proof.
  unfold rotate. rewrite length_app. cbn [length].
  replace (length l + 1) with (S (length l)) by lia.
  pose proof (Nat.mod_upper_bound n (S (length l))) as Hk.
  replace (S n) with (n + 1) by lia.
  rewrite <- Nat.Div0.add_mod_idemp_l.
  set (k := n mod S (length l)) in *.
  destruct (decide (k = length l)) as [Hk'|Hne].
  - rewrite Hk'. replace (length l + 1) with (S (length l)) by lia.
    rewrite Nat.Div0.mod_same. cbn [drop take].
    by rewrite drop_app_length, take_app_length, app_nil_r.
  - rewrite Nat.mod_small by lia.
    replace (k + 1) with (S k) by lia. cbn [drop take].
    rewrite drop_app_le, take_app_le by lia.
    by rewrite <- app_assoc.
Qed.

Lemma rotate_length {A} (l : list A) : rotate (length l) l = l.
Proof.
  unfold rotate. destruct l as [|x l]; [done|].
  rewrite Nat.Div0.mod_same. cbn [drop take]. by rewrite app_nil_r.
Qed.

(** X4: with a browser that answers every command, a non-negative queue
    timeout and at least one idle driver, every browser-flagged request of a
    sequence is served with a response, one after the other, and the
    drivers are used in turn: afterwards the queue is the initial one
    rotated by the number of requests (so it is back in its initial order
    after as many requests as there are drivers); nothing is quit and
    nothing is started. *)
Theorem serve_round_robin self requests w :
  healthy →
  (0 ≤ queue_timeout self)%Z →
  Forall (fun request => is_SeleniumRequest request = true) requests →
  items (driver_pool w) ≠ [] →
  (maxsize (driver_pool w) ≤ 0
   ∨ Z.of_nat (length (items (driver_pool w))) ≤ maxsize (driver_pool w))%Z →
  length (serve self requests w).1 = length requests ∧
  Forall (fun o => ∃ response, o.1 = Returned (Some response))
         (serve self requests w).1 ∧
  items (driver_pool (serve self requests w).2)
    = rotate (length requests) (items (driver_pool w)) ∧
  (length requests = length (items (driver_pool w)) →
   items (driver_pool (serve self requests w).2) = items (driver_pool w)) ∧
  quits (trace (serve self requests w).2) = quits (trace w) ∧
  launched (trace (serve self requests w).2) = launched (trace w).
Proof.
  intros Hh Ht Hrs. revert w.
  assert (∀ w,
    items (driver_pool w) ≠ [] →
    (maxsize (driver_pool w) ≤ 0
     ∨ Z.of_nat (length (items (driver_pool w))) ≤ maxsize (driver_pool w))%Z →
    length (serve self requests w).1 = length requests ∧
    Forall (fun o => ∃ response, o.1 = Returned (Some response))
           (serve self requests w).1 ∧
    items (driver_pool (serve self requests w).2)
      = rotate (length requests) (items (driver_pool w)) ∧
    quits (trace (serve self requests w).2) = quits (trace w) ∧
    launched (trace (serve self requests w).2) = launched (trace w)) as Hmain.
  { induction Hrs as [|request requests Hr _ IH]; intros w Hne Hb; simpl.
    - split_and!; try done. unfold rotate.
      rewrite Nat.Div0.mod_0_l. simpl. by rewrite app_nil_r.
    - destruct (items (driver_pool w)) as [|driver rest] eqn:Hq; [done|].
      rewrite <- Hq in Hb.
      destruct (process_request_healthy self request w driver rest
                  Hh Hr Ht Hq Hb)
        as (response & request' & w' & -> & Hp & Hqs & Hls & Hn).
      destruct (IH w') as (H1 & H2 & H3 & H4 & H5).
      { rewrite Hp. simpl. by destruct rest. }
      { rewrite Hp. simpl. rewrite length_app. simpl.
        rewrite Hq in Hb. simpl in Hb. lia. }
      destruct (serve self requests w') as [outs w2]. simpl in *.
      split_and!.
      + by f_equal.
      + constructor; [by eexists|done].
      + rewrite H3, Hp. simpl. by rewrite rotate_S_cons.
      + congruence.
      + congruence. }
  intros w Hne Hb. destruct (Hmain w Hne Hb) as (H1 & H2 & H3 & H4 & H5).
  split_and!; try done.
  intros Hlen. rewrite H3, Hlen. apply rotate_length.
Qed.

Lemma process_request_healthy_conserves self request w :
  healthy →
  (maxsize (driver_pool w) ≤ 0
   ∨ Z.of_nat (length (items (driver_pool w))) ≤ maxsize (driver_pool w))%Z →
  ∃ out request' w',
    process_request self request w = (out, request', w') ∧
    out ≠ Blocked ∧
    maxsize (driver_pool w') = maxsize (driver_pool w) ∧
    items (driver_pool w') ≡ₚ items (driver_pool w) ∧
    quits (trace w') = quits (trace w) ∧
    launched (trace w') = launched (trace w).
Proof.
  intros Hh Hb.
  destruct (is_SeleniumRequest request) eqn:Hr.
  2:{ unfold process_request. rewrite Hr. simpl. by eexists _, _, _. }
  destruct (queue_timeout self <? 0)%Z eqn:Ht.
  { unfold process_request, acquire, Queue_get. rewrite Hr, Ht. simpl.
    by eexists _, _, _. }
  apply Z.ltb_ge in Ht.
  destruct (items (driver_pool w)) as [|driver rest] eqn:Hq.
  { unfold process_request, acquire, Queue_get. rewrite Hr, Hq. simpl.
    replace (queue_timeout self <? 0)%Z with false
      by (symmetry; by apply Z.ltb_ge).
    eexists _, _, _. split_and!; try done. by rewrite Hq. }
  rewrite <- Hq in Hb.
  destruct (process_request_healthy self request w driver rest Hh Hr Ht Hq Hb)
    as (response & request' & w' & -> & Hp & Hqs & Hls & _).
  eexists _, _, _. split; [done|]. rewrite Hp. simpl.
  split_and!; try done. solve_Permutation.
Qed.

Lemma serve_healthy_conserves self requests w :
  healthy →
  (maxsize (driver_pool w) ≤ 0
   ∨ Z.of_nat (length (items (driver_pool w))) ≤ maxsize (driver_pool w))%Z →
  length (serve self requests w).1 = length requests ∧
  Forall (fun o => o.1 ≠ Blocked) (serve self requests w).1 ∧
  maxsize (driver_pool (serve self requests w).2) = maxsize (driver_pool w) ∧
  items (driver_pool (serve self requests w).2) ≡ₚ items (driver_pool w) ∧
  quits (trace (serve self requests w).2) = quits (trace w) ∧
  launched (trace (serve self requests w).2) = launched (trace w).
Proof.
  intros Hh. revert w.
  induction requests as [|request requests IH]; intros w Hb; simpl; [done|].
  destruct (process_request_healthy_conserves self request w Hh Hb)
    as (out & request' & w' & -> & Hout & Hm & Hi & Hqs & Hls).
  destruct (IH w') as (H1 & H2 & H3 & H4 & H5 & H6).
  { rewrite Hm, Hi. done. }
  destruct (serve self requests w') as [outs w2]. simpl in *.
  destruct out; [|
    |done]; simpl; (split_and!; [by f_equal|by constructor|congruence
                                |by rewrite H4|congruence|congruence]).
Qed.

Lemma from_crawler_Started crawler w self crawler' w' :
  from_crawler crawler w = (Started self, crawler', w') →
  ∃ name arguments r,
    SELENIUM_DRIVER_NAME (settings crawler) = Some name ∧
    SELENIUM_DRIVER_ARGUMENTS (settings crawler) = Some arguments ∧
    self = mkSeleniumMiddleware name
             (SELENIUM_DRIVER_EXECUTABLE_PATH (settings crawler))
             (SELENIUM_BROWSER_EXECUTABLE_PATH (settings crawler))
             (SELENIUM_COMMAND_EXECUTOR (settings crawler))
             arguments
             (default 5%Z (SELENIUM_DRIVER_POOL_SIZE (settings crawler)))
             (default 300%Z (SELENIUM_QUEUE_TIMEOUT (settings crawler))) ∧
    __init__ self w = (Returned r, w') ∧
    crawler' = mkCrawler (settings crawler) true.
Proof.
  unfold from_crawler.
  destruct (SELENIUM_DRIVER_NAME (settings crawler)) as [name|]; [|done].
  destruct (SELENIUM_DRIVER_ARGUMENTS (settings crawler)) as [arguments|].
  - destruct (__init__ _ w) as [[r|e|] w1] eqn:Ei; intros [= <- <- <-].
    by exists name, arguments, r.
  - unfold init_without_arguments, bind, import_module, ret, raise.
    destruct (Z.to_nat _); [done|].
    repeat (destruct (importable _); simpl); done.
Qed.

Lemma spider_closed_returns w :
  quits_return →
  (spider_closed w).1 = Returned None ∧
  items (driver_pool (spider_closed w).2) = [] ∧
  quits (trace (spider_closed w).2) = quits (trace w) ++ items (driver_pool w) ∧
  launched (trace (spider_closed w).2) = launched (trace w).
Proof.
  intros Hqr. unfold spider_closed.
  destruct (quit_each (items (driver_pool w)) (trace w))
    as [[h' called] failure] eqn:Eq.
  rewrite (spider_closed_loop_spec _ w h' called failure) by done.
  destruct (quit_each_returns (items (driver_pool w)) (trace w) Hqr)
    as [Hnone Hcalled].
  rewrite Eq in Hnone, Hcalled. simpl in Hnone, Hcalled. subst.
  apply quit_each_spec in Eq as (Hq & Hl & _). simpl.
  by rewrite drop_all.
Qed.

(** X5: when [from_crawler] has built the middleware and the browser
    answers every command and every [quit], then after any sequence of
    requests handled one after the other, closing the spider returns, quits
    exactly the drivers that [__init__] started, each of them once, and
    leaves the queue empty. *)
Theorem healthy_crawl_quits_every_driver crawler self crawler' w0 requests :
  healthy →
  quits_return →
  from_crawler crawler blank = (Started self, crawler', w0) →
  let closed := close_spider crawler' (serve self requests w0).2 in
  let w2 := closed.2 in
  closed.1 = Returned None ∧
  items (driver_pool w2) = [] ∧
  launched (trace w2) = seq 0 (Z.to_nat (pool_size self)) ∧
  quits (trace w2) ≡ₚ launched (trace w2) ∧
  NoDup (quits (trace w2)).
Proof.
  intros Hh Hqr
    (name & arguments & r & _ & _ & _ & Hi & ->)%from_crawler_Started.
  unfold __init__ in Hi.
  apply fill_pool_spec in Hi
    as (_ & Hnone & Hm & Hq & new & H5 & H6 & H7 & _); [|simpl; lia].
  rewrite (Hnone r eq_refl) in H7. destruct (H7 eq_refl) as [-> _].
  simpl in *.
  destruct (serve_healthy_conserves self requests w0 Hh)
    as (_ & _ & Hm1 & Hi1 & Hq1 & Hl1).
  { rewrite Hm, H5, length_seq. lia. }
  unfold close_spider. cbn [spider_closed_connected].
  destruct (spider_closed_returns (serve self requests w0).2 Hqr)
    as (Hout & Hidle & Hq2 & Hl2).
  rewrite Hout, Hidle, Hq2, Hl2, Hq1, Hl1, Hq, H6. simpl. rewrite Hi1, H5.
  split_and!; try done. apply NoDup_seq.
Qed.

(** ** With nothing in the queue *)

Lemma serve_empty self requests w :
  items (driver_pool w) = [] →
  serve self requests w
  = (map (fun request =>
            (if is_SeleniumRequest request
             then Raised (NameError "Empty") else Returned None, request))
         requests, w).
Proof.
  intros Hq. induction requests as [|request requests IH]; simpl; [done|].
  unfold process_request at 1, acquire, Queue_get. rewrite Hq.
  destruct (is_SeleniumRequest request); simpl.
  - destruct (queue_timeout self <? 0)%Z; simpl; by rewrite IH.
  - by rewrite IH.
Qed.

(** X7: with a pool size of zero or less, [__init__] returns at once with
    an empty, unbounded queue and starts no driver, and every
    browser-flagged request that follows raises [NameError]; the
    middleware never starts a driver. *)
Theorem nonpositive_pool_size_serves_nothing self requests w :
  (pool_size self ≤ 0)%Z →
  __init__ self w = (Returned None, set_pool (Queue_new (pool_size self)) w) ∧
  trace (serve self requests (__init__ self w).2).2 = trace w ∧
  (serve self requests (__init__ self w).2).1
  = map (fun request =>
           (if is_SeleniumRequest request
            then Raised (NameError "Empty") else Returned None, request))
        requests.
Proof.
  intros Hn. unfold __init__.
  replace (Z.to_nat (pool_size self)) with 0 by lia. simpl.
  by rewrite serve_empty.
Qed.

(** ** [from_crawler] *)

(** X8: [from_crawler] fails on missing settings before it starts any
    driver.  Without [SELENIUM_DRIVER_NAME] it raises [NotConfigured] and
    touches nothing.  With a driver name but without
    [SELENIUM_DRIVER_ARGUMENTS], and a pool size that is unset or at least
    one, it raises a [TypeError] once the driver's modules are imported. In
    both cases no call went to the outside and nothing is connected to
    [spider_closed]. *)
Theorem from_crawler_missing_settings crawler w :
  (SELENIUM_DRIVER_NAME (settings crawler) = None →
   from_crawler crawler w
   = (StartupRaised (NotConfigured "SELENIUM_DRIVER_NAME must be set"),
      crawler, w)) ∧
  (∀ name,
     SELENIUM_DRIVER_NAME (settings crawler) = Some name →
     SELENIUM_DRIVER_ARGUMENTS (settings crawler) = None →
     (1 ≤ default 5 (SELENIUM_DRIVER_POOL_SIZE (settings crawler)))%Z →
     importable (("selenium.webdriver." +:+ name) +:+ ".webdriver") = true →
     importable (("selenium.webdriver." +:+ name) +:+ ".options") = true →
     (from_crawler crawler w).1
     = (StartupRaised
          (ArgumentsTypeError "'NoneType' object is not iterable"), crawler)
     ∧ trace (from_crawler crawler w).2 = trace w
     ∧ next_id (from_crawler crawler w).2 = next_id w).
Proof.
  split.
  - intros Hn. unfold from_crawler. by rewrite Hn.
  - intros name Hn Ha Hp I1 I2.
    unfold from_crawler, init_without_arguments, bind, import_module.
    rewrite Hn, Ha. simpl.
    destruct (Z.to_nat (default 5%Z
                (SELENIUM_DRIVER_POOL_SIZE (settings crawler)))) eqn:E;
      [lia|].
    by rewrite I1, I2.
Qed.

(** X9: with a driver name and driver arguments set, and when every
    [create_driver] returns, [from_crawler] builds the middleware with the
    pool size and the queue timeout of the settings, 5 and 300 where they
    are unset; the queue is bounded by the pool size and holds that many
    freshly started drivers, and [spider_closed] is connected. *)
Theorem from_crawler_builds_pool crawler w name arguments :
  SELENIUM_DRIVER_NAME (settings crawler) = Some name →
  SELENIUM_DRIVER_ARGUMENTS (settings crawler) = Some arguments →
  let self :=
    mkSeleniumMiddleware name
      (SELENIUM_DRIVER_EXECUTABLE_PATH (settings crawler))
      (SELENIUM_BROWSER_EXECUTABLE_PATH (settings crawler))
      (SELENIUM_COMMAND_EXECUTOR (settings crawler))
      arguments
      (default 5%Z (SELENIUM_DRIVER_POOL_SIZE (settings crawler)))
      (default 300%Z (SELENIUM_QUEUE_TIMEOUT (settings crawler))) in
  (∀ w1, ∃ d, (create_driver self w1).1 = Ret d) →
  (from_crawler crawler w).1
  = (Started self, mkCrawler (settings crawler) true) ∧
  maxsize (driver_pool (from_crawler crawler w).2) = pool_size self ∧
  items (driver_pool (from_crawler crawler w).2)
  = seq (next_id w) (Z.to_nat (pool_size self)) ∧
  launched (trace (from_crawler crawler w).2)
  = launched (trace w) ++ seq (next_id w) (Z.to_nat (pool_size self)).
Proof.
  intros Hn Ha self Hall. unfold from_crawler. rewrite Hn, Ha. fold self.
  destruct (__init__ self w) as [out w'] eqn:Ei. unfold __init__ in Ei.
  apply fill_pool_spec in Ei
    as (Hnb & Hnone & Hm & _ & new & H5 & H6 & H7 & H8); [|simpl; lia].
  simpl in *.
  destruct out as [r|e|]; [| |done].
  - rewrite (Hnone r eq_refl) in H7. destruct (H7 eq_refl) as [-> _].
    simpl. by rewrite H5, H6.
  - destruct (H8 e eq_refl) as [_ [w1 Hw1]].
    destruct (Hall w1) as [d Hd]. congruence.
Qed.

(** X10: when [from_crawler] raises, nothing is connected to
    [spider_closed]: the drivers it had started before the failure are not
    quit by [from_crawler], and closing the spider does not quit them
    either. *)
Theorem from_crawler_failure_leaves_drivers crawler w err :
  (from_crawler crawler w).1.1 = StartupRaised err →
  (from_crawler crawler w).1.2 = crawler ∧
  quits (trace (from_crawler crawler w).2) = quits (trace w) ∧
  (∃ started,
     launched (trace (from_crawler crawler w).2)
     = launched (trace w) ++ started) ∧
  (spider_closed_connected crawler = false →
   close_spider (from_crawler crawler w).1.2 (from_crawler crawler w).2
   = (Returned None, (from_crawler crawler w).2)).
Proof.
  destruct (from_crawler crawler w) as [[built crawler'] w'] eqn:Ef.
  simpl. intros ->. unfold from_crawler in Ef.
  destruct (SELENIUM_DRIVER_NAME (settings crawler)) as [name|].
  2:{ injection Ef as <- <- <-. split_and!; try done.
      - exists []. by rewrite app_nil_r.
      - intros Hc. unfold close_spider. by rewrite Hc. }
  destruct (SELENIUM_DRIVER_ARGUMENTS (settings crawler)) as [arguments|].
  - destruct (__init__ _ w) as [out w1] eqn:Ei. unfold __init__ in Ei.
    apply fill_pool_spec in Ei
      as (_ & _ & _ & Hq & new & _ & H6 & _); [|simpl; lia].
    simpl in *.
    destruct out as [r|e|]; simplify_eq.
    split_and!; try done.
    + by exists new.
    + intros Hc. unfold close_spider. by rewrite Hc.
  - unfold init_without_arguments, bind, import_module, ret, raise in Ef.
    destruct (Z.to_nat _); [by simplify_eq|].
    repeat (destruct (importable _); simpl in Ef);
      simplify_eq; simpl;
      (split_and!; [done|done|exists []; by rewrite app_nil_r
                   |intros Hc; unfold close_spider; by rewrite Hc]).
Qed.

(** ** More on tasks sharing the pool *)

Lemma held_in_checked_out (ts : list pc) j p d :
  ts !! j = Some p → d ∈ held p → d ∈ concat (map held ts).
Proof.
  revert j. induction ts as [|p0 ts IH]; intros [|j]; simpl; try done.
  - intros [= ->] Hd. apply elem_of_app. by left.
  - intros Hj Hd. apply elem_of_app. right. by eapply IH.
Qed.

Lemma held_disjoint (ts : list pc) i j p p' d :
  NoDup (concat (map held ts)) →
  ts !! i = Some p → ts !! j = Some p' → i ≠ j →
  d ∈ held p → d ∉ held p'.
Proof.
  revert i j. induction ts as [|p0 ts IH]; intros [|i] [|j]; simpl; try done.
  - intros (_ & Hdisj & _)%NoDup_app [= ->] Hj _ Hd Hd'.
    apply (Hdisj d Hd). by eapply held_in_checked_out.
  - intros (_ & Hdisj & _)%NoDup_app Hi [= ->] _ Hd Hd'.
    apply (Hdisj d Hd'). by eapply held_in_checked_out.
  - intros (_ & _ & Hnd)%NoDup_app Hi Hj Hne. apply (IH i j); [done..|].
    intros ->. done.
Qed.

Lemma task_step_quits self p w p' w' :
  task_step self p w = Some (p', w') →
  ∃ qs, quits (trace w') = quits (trace w) ++ qs ∧ ∀ d, d ∈ qs → d ∈ held p.
Proof.
  assert (∀ t : history, ∃ qs : list driver_id,
            quits t = quits t ++ qs ∧ ∀ d, d ∈ qs → d ∈ held p) as Hnone.
  { intros t. exists []. rewrite app_nil_r. split; [done|].
    by intros d ?%not_elem_of_nil. }
  destruct p as [request|d request|d request e|d request e new|d request out|];
    simpl; [| | | | |done].
  - destruct (is_SeleniumRequest request); simpl; [|by intros [= <- <-]].
    destruct (acquire self w) as [r w1] eqn:Ea.
    apply acquire_cases in Ea as [(out & -> & ->)|(d & rest & -> & Hq & ->)].
    + destruct out; by intros [= <- <-].
    + by intros [= <- <-].
  - destruct (try_body d request (w, meta request)) as [r [w2 m]] eqn:Et.
    apply try_body_preserves, drives_quits in Et. simpl in Et.
    destruct r; intros [= <- <-]; rewrite Et; apply Hnone.
  - destruct (bind _ _ w) as [r w3] eqn:Eh.
    apply quit_create_driver in Eh as (rp & _ & Hc & _).
    apply created_quits in Hc. rewrite quits_log_quit in Hc.
    destruct r; intros [= <- <-]; exists [d]; (split; [done|]);
      intros d' ->%list_elem_of_singleton; by left.
  - destruct (Queue_put (driver_pool w) new) as [q|]; [|done].
    by intros [= <- <-].
  - destruct (Queue_put (driver_pool w) d) as [q|]; [|done].
    by intros [= <- <-].
Qed.

(** X11: in every state a crawl can reach, a step of a task quits no
    driver but one the task itself has checked out: never a driver that is
    idle in the queue, never one that another task holds, never one that
    [spider_closed] has taken. *)
Theorem task_quits_only_its_own_driver self s i p s' :
  reachable self s →
  tasks s !! i = Some p →
  sys_step self (Task i) s = Some s' →
  ∃ qs,
    quits (trace (sys_world s')) = quits (trace (sys_world s)) ++ qs ∧
    ∀ d, d ∈ qs →
         d ∈ held p ∧ (d ∉ idle s) ∧ (d ∉ drained s)
         ∧ (d ∉ closer_held (closing s))
         ∧ (∀ j p', j ≠ i → tasks s !! j = Some p' → d ∉ held p').
Proof.
  intros (Hacc & Hfresh & _)%reachable_invariant Hp. simpl. rewrite Hp. simpl.
  destruct (task_step self p (sys_world s)) as [[p' w']|] eqn:Et;
    simpl; [|done].
  intros [= <-]. simpl.
  apply task_step_quits in Et as (qs & Hqs & Hheld).
  exists qs. split; [done|]. intros d Hd. specialize (Hheld d Hd).
  assert (NoDup (checked_out s ++ closer_held (closing s)
                 ++ drained s ++ idle s)) as Hnd
    by (unfold accounted in Hacc; rewrite Hacc; apply Hfresh).
  assert (d ∈ checked_out s) as Hco by (by eapply held_in_checked_out).
  apply NoDup_app in Hnd as (Hnd1 & Hdisj & _).
  specialize (Hdisj d Hco). rewrite !elem_of_app in Hdisj.
  split_and!; [done|tauto|tauto|tauto|].
  intros j p0 Hne Hj. by eapply (held_disjoint (tasks s) i j).
Qed.

(** X12: in every state a crawl can reach, and with a pool size of at
    least one, the queue holds at most [pool_size] idle drivers. *)
Theorem idle_never_exceeds_pool_size self s :
  reachable self s →
  (1 ≤ pool_size self)%Z →
  length (idle s) ≤ Z.to_nat (pool_size self).
Proof. intros [_ Hb]%reachable_queue_bounded Hp. lia. Qed.

(** X13: in every state a crawl can reach in which no driver constructor
    has been called since [__init__], a task that comes to its [finally]
    never waits: the queue has room, the task puts its driver at the end
    of the queue and finishes with what it was about to return or
    raise. *)
Theorem release_never_waits self s i d request out :
  reachable self s →
  next_id (sys_world s) = Z.to_nat (pool_size self) →
  tasks s !! i = Some (AtFinally d request out) →
  ∃ s', sys_step self (Task i) s = Some s' ∧
        tasks s' !! i = Some (Finished request out) ∧
        idle s' = idle s ++ [d] ∧
        trace (sys_world s') = trace (sys_world s).
Proof.
  intros Hr Hn Hi.
  pose proof (reachable_queue_bounded self s Hr) as [Hm _].
  apply reachable_invariant in Hr as (Hacc & Hfresh & extra & Hex).
  rewrite (launched_initial_only self _ extra Hfresh Hex Hn), app_nil_r in Hex.
  unfold accounted in Hacc. rewrite Hex in Hacc.
  apply Permutation_length in Hacc. rewrite !length_app, length_seq in Hacc.
  destruct (checked_out_insert _ _ _ (AtFinally d request out) Hi)
    as (A & B & HA & _).
  unfold checked_out in Hacc. rewrite HA, !length_app in Hacc. simpl in Hacc.
  unfold idle in *. simpl. rewrite Hi. simpl.
  rewrite Queue_put_not_full by (apply Queue_full_room; rewrite Hm; lia).
  simpl. eexists. split; [done|]. simpl. split_and!; [|done|done].
  apply list_lookup_insert_eq. by eapply lookup_lt_Some.
Qed.

Lemma holds_nothing (ts : list pc) i p :
  concat (map held ts) = [] → ts !! i = Some p →
  (∃ request, p = AtGet request) ∨ (∃ request out, p = Finished request out).
Proof.
  intros Hnil Hi.
  assert (∀ d, d ∉ held p) as Hno.
  { intros d Hd. eapply held_in_checked_out in Hd; [|done].
    rewrite Hnil in Hd. by apply not_elem_of_nil in Hd. }
  destruct p as [request|d request|d request e|d request e new|d request out|];
    try (exfalso; apply (Hno d); by left).
  - left. by eexists.
  - right. by eexists _, _.
Qed.

Lemma acquire_empty self w :
  items (driver_pool w) = [] →
  acquire self w = (inl (Raised (NameError "Empty")), w).
Proof.
  intros Hq. unfold acquire, Queue_get. rewrite Hq.
  by destruct (queue_timeout self <? 0)%Z.
Qed.

Lemma no_driver_left_step self l s s1 :
  idle s = [] → checked_out s = [] → closer_held (closing s) = [] →
  sys_step self l s = Some s1 →
  sys_world s1 = sys_world s ∧ drained s1 = drained s ∧
  checked_out s1 = [] ∧ closer_held (closing s1) = [] ∧
  ∀ i p, tasks s1 !! i = Some p →
         tasks s !! i = Some p
         ∨ (∃ request, p = AtGet request)
         ∨ (∃ request,
              p = Finished request
                    (if is_SeleniumRequest request
                     then Raised (NameError "Empty") else Returned None)).
Proof.
  unfold idle, checked_out. intros Hidle Hout Hcl.
  destruct l as [request|j|]; simpl.
  - intros [= <-]. simpl. rewrite map_app, concat_app, Hout. simpl.
    split_and!; try done.
    intros i p [Hi|[_ Hi]]%lookup_app_Some; [by left|].
    right. left. exists request.
    apply list_lookup_singleton_Some in Hi as [_ <-]. done.
  - destruct (tasks s !! j) as [pj|] eqn:Hj; simpl; [|done].
    assert (∃ request,
              pj = AtGet request ∧
              task_step self pj (sys_world s)
              = Some (Finished request
                        (if is_SeleniumRequest request
                         then Raised (NameError "Empty") else Returned None),
                      sys_world s)
            ∨ task_step self pj (sys_world s) = None) as Hstep.
    { destruct (holds_nothing _ _ _ Hout Hj) as [[request ->]|(request & out & ->)].
      - exists request. left. split; [done|]. simpl.
        destruct (is_SeleniumRequest request); simpl; [|done].
        by rewrite acquire_empty.
      - exists request. by right. }
    destruct Hstep as (request & [[-> ->]| ->]); simpl; [|done].
    intros [= <-]. simpl.
    destruct (checked_out_insert _ _ _
                (Finished request
                   (if is_SeleniumRequest request
                    then Raised (NameError "Empty") else Returned None)) Hj)
      as (A & B & HA & HB).
    rewrite HB. rewrite HA in Hout. simpl in *.
    split_and!; try done.
    intros i p Hi. destruct (decide (j = i)) as [->|Hne].
    + rewrite list_lookup_insert_eq in Hi by (by eapply lookup_lt_Some).
      injection Hi as <-. right. right. by exists request.
    + rewrite list_lookup_insert_ne in Hi by done. by left.
  - destruct (closing s) as [| | |d] eqn:Hc; simpl; [| | |done].
    + intros [= <-]. simpl. split_and!; try done. by left.
    + unfold Queue_empty. rewrite Hidle. intros [= <-]. simpl.
      split_and!; try done. by left.
    + unfold Queue_get. by rewrite Hidle.
Qed.

(** X6: once the queue is empty and neither a task nor [spider_closed]
    holds a driver, as after a [spider_closed] that ran to its end with no
    call in flight, no request is rendered any more, under any interleaving
    of arrivals, task steps and [spider_closed] steps: the world stays as it
    is (no driver is called, started or quit, the queue stays empty), and a
    task either has not moved, or is about to call [get], or has ended, a
    browser-flagged one with [NameError] and any other with [None]. *)
Theorem no_rendering_once_no_driver_is_left self s ls s' :
  idle s = [] →
  checked_out s = [] →
  closer_held (closing s) = [] →
  run self ls s = Some s' →
  sys_world s' = sys_world s ∧
  drained s' = drained s ∧
  checked_out s' = [] ∧
  ∀ i p, tasks s' !! i = Some p →
         tasks s !! i = Some p
         ∨ (∃ request, p = AtGet request)
         ∨ (∃ request,
              p = Finished request
                    (if is_SeleniumRequest request
                     then Raised (NameError "Empty") else Returned None)).
Proof.
  revert s. induction ls as [|l ls IH]; intros s Hidle Hout Hcl; simpl.
  - intros [= <-]. split_and!; try done. by left.
  - destruct (sys_step self l s) as [s1|] eqn:Es; simpl; [|done].
    intros Hrun.
    destruct (no_driver_left_step self l s s1 Hidle Hout Hcl Es)
      as (Hw & Hdr & Hout1 & Hcl1 & Htasks).
    destruct (IH s1) as (Hw' & Hdr' & Hout' & Htasks'); try done.
    { unfold idle in *. by rewrite Hw. }
    split_and!; try congruence.
    intros i p Hi. destruct (Htasks' i p Hi) as [H1|H1]; [|by right].
    by apply Htasks.
Qed.

(** ** Settings that stop every request or the start *)

(** X14: with a queue timeout below zero, [driver_pool.get] raises before
    it looks at the queue, and the clause [except Empty] then evaluates the
    unbound name: every browser-flagged request raises [NameError] even
    while drivers are idle, no driver is taken, and the world stays as it
    was. *)
Theorem negative_queue_timeout_serves_nothing self requests w :
  (queue_timeout self < 0)%Z →
  serve self requests w
  = (map (fun request =>
            (if is_SeleniumRequest request
             then Raised (NameError "Empty") else Returned None, request))
         requests, w).
Proof.
  intros Ht%Z.ltb_lt.
  induction requests as [|request requests IH]; simpl; [done|].
  unfold process_request at 1, acquire, Queue_get. rewrite Ht.
  destruct (is_SeleniumRequest request); simpl; by rewrite IH.
Qed.

(** X15: a driver name whose module does not import is found out by the
    first [create_driver] only.  With a pool size of at least one (5 when
    unset), [from_crawler] raises [ModuleNotFoundError] with an empty queue,
    no driver started and nothing connected to [spider_closed]; with a pool
    size of zero or less, [create_driver] never runs and [from_crawler]
    returns the middleware as if the name were a good one. *)
Theorem from_crawler_unknown_driver crawler w name arguments :
  SELENIUM_DRIVER_NAME (settings crawler) = Some name →
  SELENIUM_DRIVER_ARGUMENTS (settings crawler) = Some arguments →
  importable (("selenium.webdriver." +:+ name) +:+ ".webdriver") = false →
  let size := default 5%Z (SELENIUM_DRIVER_POOL_SIZE (settings crawler)) in
  ((1 ≤ size)%Z →
   from_crawler crawler w
   = (StartupRaised
        (InitRaised
           (ModuleNotFoundError
              (("selenium.webdriver." +:+ name) +:+ ".webdriver"))),
      crawler, set_pool (Queue_new size) w)) ∧
  ((size ≤ 0)%Z →
   ∃ self,
     from_crawler crawler w
     = (Started self, mkCrawler (settings crawler) true,
        set_pool (Queue_new size) w) ∧
     driver_name self = name).
Proof.
  intros Hn Ha Hi size. unfold from_crawler. rewrite Hn, Ha. fold size.
  unfold __init__. cbn [pool_size].
  split; intros Hs.
  - destruct (Z.to_nat size) as [|n] eqn:En; [lia|].
    cbn [fill_pool]. unfold create_driver, bind, import_module.
    cbn [driver_name]. by rewrite Hi.
  - replace (Z.to_nat size) with 0 by lia. simpl. by eexists.
Qed.

End Middleware.

(** * [MyUserAgentMiddleware] *)

Lemma choice_member draw agents :
  agents ≠ [] →
  ∃ agent, MyUserAgentMiddleware.choice draw (Some agents) = inr agent
           ∧ agent ∈ agents.
Proof.
  intros Hne. unfold MyUserAgentMiddleware.choice.
  destruct (agents !! (draw mod length agents)) as [agent|] eqn:Hl.
  - exists agent. split; [done|]. by eapply list_elem_of_lookup_2.
  - apply lookup_ge_None in Hl.
    assert (length agents ≠ 0) as Hlen by (by destruct agents).
    pose proof (Nat.mod_upper_bound draw (length agents) Hlen). lia.
Qed.

(** X16: with [MY_USER_AGENT] set to a list that is not empty, the
    middleware built by [from_crawler] returns normally on every request,
    whatever the random draw: afterwards the [User-Agent] header is one of
    the agents of the list, every other header is as it was, and a
    [User-Agent] the request had before is replaced and has no part in the
    result. *)
Theorem user_agent_header_is_one_of_the_list crawler draw headers agents :
  MY_USER_AGENT (settings crawler) = Some agents →
  agents ≠ [] →
  ∃ agent headers',
    MyUserAgentMiddleware.process_request
      (MyUserAgentMiddleware.from_crawler crawler) draw headers = inr headers' ∧
    agent ∈ agents ∧
    headers' !! "User-Agent" = Some agent ∧
    (∀ name, name ≠ "User-Agent" → headers' !! name = headers !! name) ∧
    (∀ old,
       MyUserAgentMiddleware.process_request
         (MyUserAgentMiddleware.from_crawler crawler) draw
         (<["User-Agent" := old]> headers) = inr headers').
Proof.
  intros Hs Hne.
  destruct (choice_member draw agents Hne) as (agent & Hc & Hin).
  exists agent, (<["User-Agent" := agent]> headers).
  unfold MyUserAgentMiddleware.process_request,
    MyUserAgentMiddleware.from_crawler, MyUserAgentMiddleware.__init__.
  cbn [MyUserAgentMiddleware.user_agent]. rewrite Hs, Hc.
  split_and!; [done|done|by rewrite lookup_insert_eq| |].
  - intros name Hname. by rewrite lookup_insert_ne.
  - intros old. by rewrite insert_insert_eq.
Qed.

(** X17: the middleware built by [from_crawler] returns normally on a
    request exactly when [MY_USER_AGENT] is set to a list that is not
    empty; with the setting missing every request raises [TypeError], with
    an empty list every request raises [IndexError], whatever the headers
    and the draw. *)
Theorem user_agent_needs_a_nonempty_list crawler draw headers :
  ((∃ headers',
      MyUserAgentMiddleware.process_request
        (MyUserAgentMiddleware.from_crawler crawler) draw headers
      = inr headers')
   ↔ ∃ agents, MY_USER_AGENT (settings crawler) = Some agents ∧ agents ≠ []) ∧
  (MY_USER_AGENT (settings crawler) = None →
   MyUserAgentMiddleware.process_request
     (MyUserAgentMiddleware.from_crawler crawler) draw headers
   = inl (MyUserAgentMiddleware.TypeError
            "object of type 'NoneType' has no len()")) ∧
  (MY_USER_AGENT (settings crawler) = Some [] →
   MyUserAgentMiddleware.process_request
     (MyUserAgentMiddleware.from_crawler crawler) draw headers
   = inl (MyUserAgentMiddleware.IndexError
            "Cannot choose from an empty sequence")).
Proof.
  unfold MyUserAgentMiddleware.process_request,
    MyUserAgentMiddleware.from_crawler, MyUserAgentMiddleware.__init__.
  cbn [MyUserAgentMiddleware.user_agent].
  split_and!.
  - split.
    + intros [headers' H].
      destruct (MY_USER_AGENT (settings crawler)) as [[|a agents]|];
        [done| |done].
      by exists (a :: agents).
    + intros (agents & -> & Hne).
      destruct (choice_member draw agents Hne) as (agent & -> & _).
      by eexists.
  - by intros ->.
  - by intros ->.
Qed.

(** * The definitions at work *)

Lemma init_chrome_1 :
  __init__ env_ok all_importable (chrome_auto 1) blank = (Returned None, started_1).
Proof. reflexivity. Qed.

Lemma init_chrome_2 :
  __init__ env_ok all_importable (chrome_auto 2) blank = (Returned None, started_2).
Proof. reflexivity. Qed.

Lemma init_chrome_1_get_fails :
  __init__ env_get_fails all_importable (chrome_auto 1) blank
  = (Returned None, started_1).
Proof. reflexivity. Qed.

Lemma init_chrome_2_get_fails :
  __init__ env_get_fails all_importable (chrome_auto 2) blank
  = (Returned None, started_2).
Proof. reflexivity. Qed.

Lemma init_chrome_2_wait_times_out :
  __init__ env_wait_times_out all_importable (chrome_auto 2) blank
  = (Returned None, started_2).
Proof. reflexivity. Qed.

Lemma init_chrome_1_no_relaunch :
  __init__ env_get_and_relaunch_fail all_importable (chrome_auto 1) blank
  = (Returned None, started_1).
Proof. reflexivity. Qed.

(** A request that is not a [SeleniumRequest] passes through untouched. *)
Lemma plain_request_not_handled :
  process_request env_ok all_importable (chrome_auto 2) plain_request started_2
  = (Returned None, plain_request, started_2).
Proof. reflexivity. Qed.

(** With only a command executor set, the remote driver is built. *)
Lemma create_driver_remote :
  (create_driver env_ok all_importable (chrome_remote 2) blank).1 = Ret 0
  ∧ launches (trace (create_driver env_ok all_importable (chrome_remote 2)
                       blank).2)
    = [(0, WebdriverRemote "http://hub:4444"
             (mkOptions None ["--headless"]))].
Proof. split; reflexivity. Qed.

(** ** C1 *)

(** Navigation fails and Chrome cannot be started again: the call raises,
    and the only idle driver is the one that failed and was quit. *)
Lemma process_request_failure_requeues_failed_witness :
  0 ∈ quits (trace (process_request env_get_and_relaunch_fail all_importable
                      (chrome_auto 1) selenium_request started_1).2)
  ∧ items (driver_pool (process_request env_get_and_relaunch_fail
                          all_importable (chrome_auto 1) selenium_request
                          started_1).2) = [0].
Proof.
  destruct (process_request_failure_requeues_failed
              env_get_and_relaunch_fail all_importable (chrome_auto 1)
              selenium_request started_1 0 []
              (WebDriverException "net::ERR_NAME_NOT_RESOLVED")
              (mkWorld (mkQueue 1 [])
                 [(EvLaunch 0 headless_chrome, Ok EmptyString);
                  (EvCommand 0 (Get "http://example.com/"),
                   Fail (WebDriverException "net::ERR_NAME_NOT_RESOLVED"))] 1)
              (meta selenium_request))
    as [Hq _]; [reflexivity|done|reflexivity|reflexivity|].
  split; [exact Hq|reflexivity].
Defined.

(** Navigation fails on a pool of one whose replacement starts: the queue
    is full with the replacement, the [finally] clause waits, and the
    caller never sees the exception. *)
Lemma failed_fetch_alone_waits_forever :
  (process_request env_get_fails all_importable (chrome_auto 1)
     selenium_request started_1).1.1 = Blocked
  ∧ items (driver_pool (process_request env_get_fails all_importable
                          (chrome_auto 1) selenium_request started_1).2) = [1].
Proof. split; reflexivity. Qed.

(** Two tasks hold the two drivers of a pool of two and the first one's
    wait times out: the timeout is raised to its caller, and afterwards the
    replacement and the driver that was quit are both idle while the second
    task still holds its driver, three drivers on a pool of two.  The second
    task's fetch then succeeds, but it finds no room to put its driver
    back. *)
Lemma failed_driver_idle_beside_replacement :
  (fun s => (idle s, quits (trace (sys_world s)), checked_out s,
             tasks s !! 0))
    <$> run env_wait_times_out all_importable (chrome_auto 2)
          [Arrive selenium_request; Arrive selenium_request;
           Task 0; Task 1; Task 0; Task 0; Task 0; Task 0; Task 1]
          (mkSystem started_2 [] Off [])
  = Some ([2; 0], [0], [1],
          Some (Finished selenium_request (Raised (TimeoutException EmptyString))))
  ∧ run env_wait_times_out all_importable (chrome_auto 2)
      [Arrive selenium_request; Arrive selenium_request;
       Task 0; Task 1; Task 0; Task 0; Task 0; Task 0; Task 1; Task 1]
      (mkSystem started_2 [] Off [])
    = None.
Proof. split; vm_compute; reflexivity. Qed.

(** ** C2 *)

(** After [spider_closed] on a fresh pool of one, with no task anywhere,
    nothing is checked out and nothing is idle. *)
Lemma spider_closed_leaves_nothing_counterexample :
  ∃ s, reachable env_ok all_importable (chrome_auto 1) s
       ∧ run env_ok all_importable (chrome_auto 1)
           [Closer; Closer; Closer; Closer; Closer]
           (mkSystem started_1 [] Off []) = Some s
       ∧ tasks s = [] ∧ closing s = Off
       ∧ length (checked_out s) + length (idle s) = 0
       ∧ Z.to_nat (pool_size (chrome_auto 1)) = 1.
Proof.
  destruct (run env_ok all_importable (chrome_auto 1)
              [Closer; Closer; Closer; Closer; Closer]
              (mkSystem started_1 [] Off [])) as [s|] eqn:Hrun;
    [|by vm_compute in Hrun].
  exists s. split; [by eapply run_reachable; [exact init_chrome_1|]|].
  vm_compute in Hrun. injection Hrun as <-. by split_and!.
Qed.

Lemma reachable_pool_accounting_witness :
  ∃ s, run env_ok all_importable (chrome_auto 2)
         [Arrive selenium_request; Task 0] (mkSystem started_2 [] Off [])
       = Some s
       ∧ length (checked_out s) + length (idle s) = 2
       ∧ NoDup (checked_out s ++ closer_held (closing s)
                ++ drained s ++ idle s)
       ∧ checked_out s ++ closer_held (closing s) ++ drained s ++ idle s
         ≡ₚ launched (trace (sys_world s)).
Proof.
  destruct (run env_ok all_importable (chrome_auto 2)
              [Arrive selenium_request; Task 0]
              (mkSystem started_2 [] Off [])) as [s|] eqn:Hrun;
    [|by vm_compute in Hrun].
  exists s. split; [reflexivity|].
  destruct (reachable_pool_accounting env_ok all_importable (chrome_auto 2) s
              (run_reachable env_ok all_importable (chrome_auto 2)
                 started_2 _ s init_chrome_2 Hrun))
    as (Hnd & Hperm & _ & _ & Hsum).
  split_and!; [|exact Hnd|exact Hperm].
  vm_compute in Hrun. injection Hrun as <-.
  destruct (Hsum eq_refl) as (_ & _ & H). exact (H eq_refl).
Defined.

(** ** C3 *)

Lemma process_request_exhausted_NameError_witness :
  process_request env_ok all_importable (chrome_auto 1) selenium_request
    (spider_closed env_ok started_1).2
  = (Raised (NameError "Empty"), selenium_request,
     (spider_closed env_ok started_1).2).
Proof. apply process_request_exhausted_NameError; reflexivity. Defined.

(** ** C4 *)

(** One driver is checked out while [spider_closed] runs to its end and
    quits the other; the task then puts its driver back, and the next
    request gets it: an acquisition after shutdown that succeeds. *)
Lemma acquire_after_spider_closed_counterexample :
  ∃ s, reachable env_ok all_importable (chrome_auto 2) s
       ∧ run env_ok all_importable (chrome_auto 2)
           [Arrive selenium_request; Task 0;
            Closer; Closer; Closer; Closer; Closer;
            Task 0; Task 0; Arrive selenium_request; Task 1]
           (mkSystem started_2 [] Off []) = Some s
       ∧ closing s = Off
       ∧ drained s = [1]
       ∧ quits (trace (sys_world s)) = [1]
       ∧ tasks s !! 1 = Some (InTry 0 selenium_request).
Proof.
  destruct (run env_ok all_importable (chrome_auto 2)
              [Arrive selenium_request; Task 0;
               Closer; Closer; Closer; Closer; Closer;
               Task 0; Task 0; Arrive selenium_request; Task 1]
              (mkSystem started_2 [] Off [])) as [s|] eqn:Hrun;
    [|by vm_compute in Hrun].
  exists s. split; [by eapply run_reachable; [exact init_chrome_2|]|].
  vm_compute in Hrun. injection Hrun as <-. by split_and!.
Qed.

(** The session of driver 0 is gone and its [quit] raises:
    [spider_closed] raises with driver 1 still in the queue and not quit;
    run again, it quits driver 1 and returns. *)
Lemma spider_closed_stops_at_raising_quit :
  (spider_closed env_quit_fails started_2).1
  = Raised (WebDriverException "invalid session id")
  ∧ items (driver_pool (spider_closed env_quit_fails started_2).2) = [1]
  ∧ quits (trace (spider_closed env_quit_fails started_2).2) = [0]
  ∧ (spider_closed env_quit_fails
       (spider_closed env_quit_fails started_2).2).1 = Returned None
  ∧ quits (trace (spider_closed env_quit_fails
                    (spider_closed env_quit_fails started_2).2).2) = [0; 1].
Proof. split_and!; reflexivity. Qed.

(** ** C5 *)

(** The second driver cannot be started: [__init__] raises, and the first
    driver has been started and is never quit. *)
Lemma init_leaves_started_driver_counterexample :
  (__init__ env_second_launch_fails all_importable (chrome_local 2) blank).1
  = Raised (WebDriverException "cannot start")
  ∧ launched (trace (__init__ env_second_launch_fails all_importable
                       (chrome_local 2) blank).2) = [0]
  ∧ quits (trace (__init__ env_second_launch_fails all_importable
                    (chrome_local 2) blank).2) = [].
Proof. split_and!; reflexivity. Qed.

(** ** C6 *)

Lemma create_driver_auto_not_chrome_unbound_witness :
  create_driver env_ok all_importable (firefox_auto 2) blank
  = (Raise (UnboundLocalError "driver"), blank).
Proof.
  apply create_driver_auto_not_chrome_unbound; try reflexivity.
  vm_compute. discriminate.
Defined.

(** ** C7 *)

(** All three fields set: the local driver class is used. *)
Lemma create_driver_selects_mode_witness :
  ∃ new,
    launches (trace (create_driver env_ok all_importable (chrome_local 2)
                       blank).2) = [] ++ new
    ∧ new = [(0, DriverKlass "chrome"
                   [("executable_path", KwStr "/usr/bin/chromedriver");
                    ("chrome_options",
                     KwOptions (mkOptions (Some "/usr/bin/chromium")
                                  ["--headless"; "--no-sandbox"]))])].
Proof.
  destruct (create_driver_selects_mode env_ok all_importable (chrome_local 2)
              blank) as (new & Hnew & _ & _ & Hmode).
  destruct (Hmode eq_refl eq_refl) as (path & Hpath & Hl).
  exists new. split; [exact Hnew|].
  injection Hpath as <-. exact Hl.
Defined.

(** ** C8 *)

(** One call alone on a fresh pool of two: the drive is answered, the
    response carries the address and the markup that were read, the
    screenshot and the driver are in [meta], and driver 0 is behind
    driver 1 in the queue. *)
Lemma successful_drive_alone_returns :
  ∃ request' w',
    process_request env_ok all_importable (chrome_auto 2) selenium_request
      started_2
    = (Returned
         (Some (mkHtmlResponse "http://example.com/landing"
                  (String.list_byte_of_string "<html></html>") "utf-8")),
       request', w')
    ∧ meta request' !! "screenshot" = Some (MetaScreenshot "PNG")
    ∧ meta request' !! "driver" = Some (MetaDriver 0)
    ∧ items (driver_pool w') = [1; 0].
Proof. eexists _, _. split_and!; vm_compute; reflexivity. Qed.

(** Two tasks hold the two drivers of a pool of two.  The wait of the
    first times out: its handler puts the replacement 2 and its [finally]
    puts driver 0.  The drive of the second is answered and the task comes
    to its [finally] with its response, but the queue is full: the task
    waits and the response is never returned. *)
Lemma process_request_success_witness :
  ∃ s s1 request' response,
    run env_wait_times_out all_importable (chrome_auto 2)
      [Arrive selenium_request; Arrive selenium_request;
       Task 0; Task 1; Task 0; Task 0; Task 0; Task 0]
      (mkSystem started_2 [] Off []) = Some s
    ∧ tasks s !! 1 = Some (InTry 1 selenium_request)
    ∧ sys_step env_wait_times_out all_importable (chrome_auto 2) (Task 1) s
      = Some s1
    ∧ tasks s1 !! 1
      = Some (AtFinally 1 request' (Returned (Some response)))
    ∧ resp_url response = "http://example.com/landing"
    ∧ resp_body response = String.list_byte_of_string "<html></html>"
    ∧ idle s1 = [2; 0]
    ∧ sys_step env_wait_times_out all_importable (chrome_auto 2) (Task 1) s1
      = None.
Proof.
  destruct (run env_wait_times_out all_importable (chrome_auto 2)
              [Arrive selenium_request; Arrive selenium_request;
               Task 0; Task 1; Task 0; Task 0; Task 0; Task 0]
              (mkSystem started_2 [] Off [])) as [s|] eqn:Hrun;
    [|by vm_compute in Hrun].
  assert (tasks s !! 1 = Some (InTry 1 selenium_request)) as Hi
    by (vm_compute in Hrun; injection Hrun as <-; reflexivity).
  destruct (process_request_success env_wait_times_out all_importable
              (chrome_auto 2) s 1 1 selenium_request Hi) as [Hok _].
  vm_compute in Hrun. injection Hrun as <-.
  edestruct (Hok _ _ eq_refl)
    as (s1 & response & request' & new & pre & page_source & current_url
        & png & Hstep & Ht & Hidle & _ & _ & _ & _ & _ & _ & _
        & _ & _ & _ & Hrelease & _).
  specialize (Hrelease s1 Ht).
  vm_compute in Hstep. injection Hstep as <-.
  vm_compute in Ht. injection Ht as <- <-.
  eexists _, _, _, _.
  split_and!; [reflexivity|reflexivity|reflexivity|reflexivity|reflexivity
              |reflexivity|reflexivity|exact Hrelease].
Defined.

(** ** C9 *)

(** A successful call leaves the driver in the request's [meta]. *)
Lemma process_request_writes_meta_counterexample :
  meta (process_request env_ok all_importable (chrome_auto 2)
          selenium_request started_2).1.2 !! "driver"
  = Some (MetaDriver 0)
  ∧ meta selenium_request !! "driver" = None.
Proof. split; vm_compute; reflexivity. Qed.

(** ** C10 *)

Lemma spider_closed_spares_checked_out_witness :
  ∃ s, run env_ok all_importable (chrome_auto 2)
         [Arrive selenium_request; Task 0;
          Closer; Closer; Closer; Closer; Closer; Task 0]
         (mkSystem started_2 [] Off []) = Some s
       ∧ (0 ∉ drained s)
       ∧ ∃ s1, sys_step env_ok all_importable (chrome_auto 2) (Task 0) s
               = Some s1 ∧ idle s1 = [0].
Proof.
  destruct (run env_ok all_importable (chrome_auto 2)
              [Arrive selenium_request; Task 0;
               Closer; Closer; Closer; Closer; Closer; Task 0]
              (mkSystem started_2 [] Off [])) as [s|] eqn:Hrun;
    [|by vm_compute in Hrun].
  exists s. split; [reflexivity|].
  destruct (spider_closed_spares_checked_out env_ok all_importable
              (chrome_auto 2) s
              (run_reachable env_ok all_importable (chrome_auto 2)
                 started_2 _ s init_chrome_2 Hrun))
    as [_ Hrelease].
  vm_compute in Hrun. injection Hrun as <-.
  destruct (Hrelease 0 0 _ _ eq_refl eq_refl)
    as (Hlive & s1 & Hstep & Hidle & _).
  split; [exact Hlive|]. exists s1. split; [exact Hstep|exact Hidle].
Defined.

(** * The further properties at work *)

Lemma env_ok_healthy : healthy env_ok.
Proof. intros h d c. destruct c; eexists; reflexivity. Qed.

Lemma env_ok_quits_return : quits_return env_ok.
Proof. intros h d. eexists. reflexivity. Qed.

Lemma from_crawler_chrome :
  from_crawler env_ok all_importable (mkCrawler chrome_settings false) blank
  = (Started (chrome_auto 5), mkCrawler chrome_settings true, started_5).
Proof. reflexivity. Qed.

(** Navigation fails on driver 0 of a pool of two: after the failing
    command the driver is quit, and one constructor call follows. *)
Lemma process_request_failure_trace_witness :
  ∃ h1 tail,
    trace (process_request env_get_fails all_importable (chrome_auto 2)
             selenium_request started_2).2
    = h1 ++ (EvQuit 0, Ok EmptyString) :: tail
    ∧ (tail = [] ∨ ∃ l rp, tail = [(EvLaunch 2 l, rp)]).
Proof.
  edestruct (process_request_failure_trace env_get_fails all_importable
               (chrome_auto 2) selenium_request started_2 0 [1])
    as (pre & post & vs & tail & _ & _ & _ & Ht & Htail);
    [reflexivity|done|reflexivity|vm_compute; reflexivity|].
  eexists _, tail. split; [exact Ht|].
  destruct Htail as [Hnil|[_ Hlaunch]]; [by left|by right].
Defined.

Lemma process_request_failure_meta_witness :
  meta (process_request env_get_fails all_importable (chrome_auto 2)
          selenium_request started_2).1.2 !! "driver"
  = meta selenium_request !! "driver"
  ∧ 0 ∈ quits (trace (process_request env_get_fails all_importable
                        (chrome_auto 2) selenium_request started_2).2).
Proof.
  edestruct (process_request_failure_meta env_get_fails all_importable
               (chrome_auto 2) selenium_request started_2 0 [1])
    as [Hm Hq]; [reflexivity|done|reflexivity|vm_compute; reflexivity|].
  split; [exact Hm|exact Hq].
Defined.

Lemma process_request_screenshot_only_on_request_witness :
  meta (process_request env_ok all_importable (chrome_auto 2)
          (mkRequest true "http://example.com/" [] ∅ 0 None false None)
          started_2).1.2 !! "screenshot" = None.
Proof.
  rewrite (process_request_screenshot_only_on_request env_ok all_importable
             (chrome_auto 2)
             (mkRequest true "http://example.com/" [] ∅ 0 None false None)
             started_2); reflexivity.
Defined.

(** Three requests on a pool of two: the queue ends rotated by three. *)
Lemma serve_round_robin_witness :
  items (driver_pool (serve env_ok all_importable (chrome_auto 2)
                        [selenium_request; selenium_request; selenium_request]
                        started_2).2) = [1; 0]
  ∧ quits (trace (serve env_ok all_importable (chrome_auto 2)
                    [selenium_request; selenium_request; selenium_request]
                    started_2).2) = [].
Proof.
  destruct (serve_round_robin env_ok all_importable (chrome_auto 2)
              [selenium_request; selenium_request; selenium_request]
              started_2)
    as (_ & _ & Hi & _ & Hq & _);
    [exact env_ok_healthy|done|by repeat constructor|done
    |right; simpl; lia|].
  split; [exact Hi|exact Hq].
Defined.

Lemma healthy_crawl_quits_every_driver_witness :
  quits (trace (close_spider env_ok (mkCrawler chrome_settings true)
                  (serve env_ok all_importable (chrome_auto 5)
                     [selenium_request; plain_request; selenium_request]
                     started_5).2).2)
  ≡ₚ [0; 1; 2; 3; 4].
Proof.
  destruct (healthy_crawl_quits_every_driver env_ok all_importable
              (mkCrawler chrome_settings false) (chrome_auto 5)
              (mkCrawler chrome_settings true) started_5
              [selenium_request; plain_request; selenium_request]
              env_ok_healthy env_ok_quits_return from_crawler_chrome)
    as (_ & _ & Hl & Hp & _).
  rewrite Hp, Hl. reflexivity.
Defined.

(** [spider_closed] has run to its end on a fresh pool of one with no
    call in flight; of the requests that arrive afterwards, the
    browser-flagged one ends with [NameError] and the other with [None],
    and the world does not change. *)
Lemma no_rendering_once_no_driver_is_left_witness :
  ∃ s s',
    run env_ok all_importable (chrome_auto 1)
      [Closer; Closer; Closer; Closer; Closer]
      (mkSystem started_1 [] Off []) = Some s
    ∧ run env_ok all_importable (chrome_auto 1)
        [Arrive selenium_request; Arrive plain_request;
         Task 0; Closer; Task 1; Closer] s = Some s'
    ∧ sys_world s' = sys_world s
    ∧ tasks s' = [Finished selenium_request (Raised (NameError "Empty"));
                  Finished plain_request (Returned None)].
Proof.
  destruct (run env_ok all_importable (chrome_auto 1)
              [Closer; Closer; Closer; Closer; Closer]
              (mkSystem started_1 [] Off [])) as [s|] eqn:Hrun;
    [|by vm_compute in Hrun].
  destruct (run env_ok all_importable (chrome_auto 1)
              [Arrive selenium_request; Arrive plain_request;
               Task 0; Closer; Task 1; Closer] s) as [s'|] eqn:Hrun';
    [|exfalso; vm_compute in Hrun; injection Hrun as <-;
      by vm_compute in Hrun'].
  exists s, s'. split; [reflexivity|]. split; [exact Hrun'|].
  destruct (no_rendering_once_no_driver_is_left env_ok all_importable
              (chrome_auto 1) s
              [Arrive selenium_request; Arrive plain_request;
               Task 0; Closer; Task 1; Closer] s')
    as (Hw & _ & _ & _);
    [by (vm_compute in Hrun; injection Hrun as <-)
    |by (vm_compute in Hrun; injection Hrun as <-)
    |by (vm_compute in Hrun; injection Hrun as <-)
    |exact Hrun'|].
  split; [exact Hw|].
  vm_compute in Hrun. injection Hrun as <-.
  vm_compute in Hrun'. injection Hrun' as <-. reflexivity.
Defined.

Lemma nonpositive_pool_size_serves_nothing_witness :
  (serve env_ok all_importable (chrome_auto 0)
     [selenium_request; plain_request]
     (__init__ env_ok all_importable (chrome_auto 0) blank).2).1
  = [(Raised (NameError "Empty"), selenium_request);
     (Returned None, plain_request)].
Proof.
  destruct (nonpositive_pool_size_serves_nothing env_ok all_importable
              (chrome_auto 0) [selenium_request; plain_request] blank)
    as (_ & _ & Hs); [done|].
  exact Hs.
Defined.

Lemma from_crawler_builds_pool_witness :
  (from_crawler env_ok all_importable (mkCrawler chrome_settings false)
     blank).1
  = (Started (chrome_auto 5), mkCrawler chrome_settings true)
  ∧ items (driver_pool (from_crawler env_ok all_importable
                          (mkCrawler chrome_settings false) blank).2)
    = [0; 1; 2; 3; 4].
Proof.
  destruct (from_crawler_builds_pool env_ok all_importable
              (mkCrawler chrome_settings false) blank "chrome" ["--headless"])
    as (Hs & _ & Hi & _); [reflexivity|reflexivity| |].
  - intros w1. eexists. reflexivity.
  - split; [exact Hs|exact Hi].
Defined.

(** The second driver cannot be started: [from_crawler] raises, the first
    driver stays, and nothing will quit it. *)
Lemma from_crawler_failure_leaves_drivers_witness :
  quits (trace (from_crawler env_second_launch_fails all_importable
                  (mkCrawler chrome_settings false) blank).2) = []
  ∧ launched (trace (from_crawler env_second_launch_fails all_importable
                       (mkCrawler chrome_settings false) blank).2) = [0]
  ∧ (from_crawler env_second_launch_fails all_importable
       (mkCrawler chrome_settings false) blank).1.2
    = mkCrawler chrome_settings false.
Proof.
  edestruct (from_crawler_failure_leaves_drivers env_second_launch_fails
               all_importable (mkCrawler chrome_settings false) blank)
    as (Hc & Hq & _ & _); [vm_compute; reflexivity|].
  split_and!; [exact Hq|reflexivity|exact Hc].
Defined.

(** Navigation fails for the one task of a pool of two; the step that
    follows quits the task's driver, which is not idle. *)
Lemma task_quits_only_its_own_driver_witness :
  ∃ s s',
    run env_get_fails all_importable (chrome_auto 2)
      [Arrive selenium_request; Task 0; Task 0]
      (mkSystem started_2 [] Off []) = Some s
    ∧ sys_step env_get_fails all_importable (chrome_auto 2) (Task 0) s
      = Some s'
    ∧ ∃ qs, quits (trace (sys_world s'))
            = quits (trace (sys_world s)) ++ qs
            ∧ ∀ d, d ∈ qs → d ∉ idle s.
Proof.
  destruct (run env_get_fails all_importable (chrome_auto 2)
              [Arrive selenium_request; Task 0; Task 0]
              (mkSystem started_2 [] Off [])) as [s|] eqn:Hrun;
    [|by vm_compute in Hrun].
  pose proof (run_reachable env_get_fails all_importable (chrome_auto 2)
                started_2 _ s init_chrome_2_get_fails Hrun) as Hr.
  exists s.
  destruct (sys_step env_get_fails all_importable (chrome_auto 2) (Task 0) s)
    as [s'|] eqn:Hstep;
    [|exfalso; vm_compute in Hrun; injection Hrun as <-;
      by vm_compute in Hstep].
  destruct (tasks s !! 0) as [p|] eqn:Hp;
    [|exfalso; vm_compute in Hrun; injection Hrun as <-;
      by vm_compute in Hp].
  exists s'. split; [reflexivity|]. split; [reflexivity|].
  destruct (task_quits_only_its_own_driver env_get_fails all_importable
              (chrome_auto 2) s 0 p s' Hr Hp Hstep) as (qs & Hqs & Hall).
  exists qs. split; [exact Hqs|].
  intros d Hd. exact (proj1 (proj2 (Hall d Hd))).
Defined.

Lemma idle_never_exceeds_pool_size_witness :
  ∃ s, run env_ok all_importable (chrome_auto 2)
         [Arrive selenium_request; Task 0; Task 0; Task 0]
         (mkSystem started_2 [] Off []) = Some s
       ∧ length (idle s) ≤ 2.
Proof.
  destruct (run env_ok all_importable (chrome_auto 2)
              [Arrive selenium_request; Task 0; Task 0; Task 0]
              (mkSystem started_2 [] Off [])) as [s|] eqn:Hrun;
    [|by vm_compute in Hrun].
  exists s. split; [reflexivity|].
  apply (idle_never_exceeds_pool_size env_ok all_importable (chrome_auto 2) s);
    [|done].
  exact (run_reachable env_ok all_importable (chrome_auto 2)
           started_2 _ s init_chrome_2 Hrun).
Defined.

(** A task has rendered its page on a pool of two and stands at its
    [finally]: its next step puts driver 0 behind driver 1. *)
Lemma release_never_waits_witness :
  ∃ s s',
    run env_ok all_importable (chrome_auto 2)
      [Arrive selenium_request; Task 0; Task 0]
      (mkSystem started_2 [] Off []) = Some s
    ∧ sys_step env_ok all_importable (chrome_auto 2) (Task 0) s = Some s'
    ∧ idle s = [1] ∧ idle s' = idle s ++ [0].
Proof.
  destruct (run env_ok all_importable (chrome_auto 2)
              [Arrive selenium_request; Task 0; Task 0]
              (mkSystem started_2 [] Off [])) as [s|] eqn:Hrun;
    [|by vm_compute in Hrun].
  pose proof (run_reachable env_ok all_importable (chrome_auto 2)
                started_2 _ s init_chrome_2 Hrun) as Hr.
  assert (next_id (sys_world s) = Z.to_nat (pool_size (chrome_auto 2))
          ∧ idle s = [1]
          ∧ ∃ request out, tasks s !! 0 = Some (AtFinally 0 request out))
    as (Hn & Hidle & request & out & Hp).
  { vm_compute in Hrun. injection Hrun as <-.
    split_and!; [reflexivity|reflexivity|]. eexists _, _. reflexivity. }
  destruct (release_never_waits env_ok all_importable (chrome_auto 2) s 0 0
              request out Hr Hn Hp) as (s' & Hstep & _ & Hi & _).
  exists s, s'. split; [reflexivity|]. split; [exact Hstep|].
  split; [exact Hidle|exact Hi].
Defined.

Lemma user_agent_header_is_one_of_the_list_witness :
  ∃ agent headers',
    MyUserAgentMiddleware.process_request
      (MyUserAgentMiddleware.from_crawler (mkCrawler chrome_settings false))
      3 chrome_headers = inr headers'
    ∧ agent ∈ ["Mozilla/5.0 (X11)"; "Mozilla/5.0 (Windows)"]
    ∧ headers' !! "User-Agent" = Some agent
    ∧ headers' !! "Accept" = Some "text/html".
Proof.
  destruct (user_agent_header_is_one_of_the_list
              (mkCrawler chrome_settings false) 3 chrome_headers
              ["Mozilla/5.0 (X11)"; "Mozilla/5.0 (Windows)"])
    as (agent & headers' & Hp & Hin & Hu & Hother & _); [reflexivity|done|].
  exists agent, headers'. split_and!; [exact Hp|exact Hin|exact Hu|].
  rewrite Hother; [reflexivity|done].
Defined.

Lemma negative_queue_timeout_serves_nothing_witness :
  serve env_ok all_importable impatient_chrome
    [selenium_request; plain_request; selenium_request] started_2
  = ([(Raised (NameError "Empty"), selenium_request);
      (Returned None, plain_request);
      (Raised (NameError "Empty"), selenium_request)], started_2).
Proof.
  apply (negative_queue_timeout_serves_nothing env_ok all_importable
           impatient_chrome
           [selenium_request; plain_request; selenium_request] started_2).
  reflexivity.
Defined.

Lemma from_crawler_unknown_driver_witness :
  from_crawler env_ok no_netscape (mkCrawler netscape_settings false) blank
  = (StartupRaised
       (InitRaised
          (ModuleNotFoundError "selenium.webdriver.netscape.webdriver")),
     mkCrawler netscape_settings false, mkWorld (Queue_new 5) [] 0).
Proof.
  destruct (from_crawler_unknown_driver env_ok no_netscape
              (mkCrawler netscape_settings false) blank "netscape" [])
    as [Hraise _]; [reflexivity|reflexivity|reflexivity|].
  apply Hraise. simpl. lia.
Defined.
